(** * Smart Movie Recommender: the recommendation core of [aw.py]

    A shallow embedding of the data-handling functions of [aw.py]
    ([load_data], [build_similarity_matrix], [recommend_content],
    [recommend_attributes]) and the properties of them that the
    specification states.

    pandas frames are objects: [build_similarity_matrix] assigns a column
    of the frame it is given, the two recommenders build new frames.  The
    functions are therefore written in a small state-and-error monad over
    a store of frames, one primitive per pandas operation the source
    uses.  Floating-point cells are modelled by the rationals they denote
    ([None] is NaN); only their order and equality are used.  What the
    program takes from libraries without fixing it in its own text (the
    number parser of [pd.to_numeric], scikit-learn's vectorizer and
    cosine, the order pandas' default sort gives to equal values) is a
    parameter of the definitions.  The sort that pandas runs by default
    is written out as well ([nargsort]), for the examples in which the
    order of equal ratings shows. *)

From Stdlib Require Import QArith.
From stdpp Require Import base list strings sorting.

Open Scope string_scope.
Open Scope list_scope.

(** ** Cells and rows *)

(** A cell of a column that [pd.read_csv] types as numbers or, when some
    entry is not a number, as text: missing, text, or a number. *)
Inductive cell :=
| NaN
| Str (s : string)
| Num (q : Q).

Module Raw.
(** A row of [imdb_top_1000.csv] as parsed by [pd.read_csv], restricted
    to the columns the program reads.  An empty text cell is [None]. *)
Record Row := {
  Poster_Link : option string;
  Series_Title : option string;
  Released_Year : cell;
  Genre : option string;
  IMDB_Rating : cell;
  Overview : option string;
  Director : option string;
  Star1 : option string;
  Star2 : option string;
  Star3 : option string;
  Star4 : option string
}.
End Raw.

(** A row of the frame [load_data] returns: the title is present, the two
    numeric columns are floats (NaN is [None]), genre and stars are text;
    overview, director and poster are left as read. *)
Record Movie := {
  Poster_Link : option string;
  Series_Title : string;
  Released_Year : option Q;
  Genre : string;
  IMDB_Rating : option Q;
  Overview : option string;
  Director : option string;
  Star1 : string;
  Star2 : string;
  Star3 : string;
  Star4 : string
}.

(** The columns of the csv that the model keeps, in file order. *)
Definition csv_columns : list string :=
  ["Poster_Link"; "Series_Title"; "Released_Year"; "Genre"; "IMDB_Rating";
   "Overview"; "Director"; "Star1"; "Star2"; "Star3"; "Star4"].

(** ** Exceptions *)

Inductive error :=
| IndexError
| KeyError
| ValueError
| Dangling.  (* a reference to no object; Python has none *)

Inductive result (A : Type) :=
| Ok (a : A)
| Raise (e : error).
Arguments Ok {A} a.
Arguments Raise {A} e.

#[export] Instance result_ret : MRet result := fun A a => Ok a.
#[export] Instance result_bind : MBind result := fun A B f x =>
  match x with
  | Ok a => f a
  | Raise e => Raise e
  end.

(** ** Frames *)

(** A frame: the names of its columns, the row labels, the rows, and the
    derived [metadata] column when it has been assigned.  Labels are
    those of [read_csv]'s range index; they survive row selection
    unchanged.  A column of the rows can be read only when its name is
    among [columns]. *)
Record DataFrame := {
  columns : list string;
  index : list nat;
  data : list Movie;
  metadata : option (list (option string))
}.

(** [pd.DataFrame()] *)
Definition empty_frame : DataFrame :=
  {| columns := []; index := []; data := []; metadata := None |}.

(** [Series.fillna(v)] on one cell. *)
Definition fillna {A} (v : A) (c : option A) : A := default v c.

(** Boolean-mask selection [s[mask]] on one column. *)
Fixpoint mask_select {A} (mask : list bool) (l : list A) : list A :=
  match mask, l with
  | b :: mask', x :: l' =>
      if b then x :: mask_select mask' l' else mask_select mask' l'
  | _, _ => []
  end.

(** [df[mask]]: every column and the labels are selected alike. *)
Definition frame_mask (mask : list bool) (df : DataFrame) : DataFrame :=
  {| columns := columns df;
     index := mask_select mask (index df);
     data := mask_select mask (data df);
     metadata := mask_select mask <$> metadata df |}.

(** What [df[key]] is given when [key] is a Series.  pandas selects rows
    when the Series is boolean; a Series that is not, here always an
    empty one, is read as a list of column labels. *)
Inductive key :=
| Mask (mask : list bool)
| NoLabels.

(** [s.apply(f)] and [df.apply(f, axis=1)] with a boolean [f], as a key.
    On no rows pandas does not call [f]: [Series.apply] returns an empty
    Series of the dtype of [s] (text or float), [DataFrame.apply] an
    empty float Series; neither is boolean. *)
Definition apply {A} (f : A -> bool) (col : list A) : key :=
  match col with
  | [] => NoLabels
  | _ => Mask (f <$> col)
  end.

(** [df[key]]; with no labels the result has the rows' labels and no
    column. *)
Definition frame_getitem (k : key) (df : DataFrame) : DataFrame :=
  match k with
  | Mask mask => frame_mask mask df
  | NoLabels =>
      {| columns := []; index := index df; data := data df; metadata := None |}
  end.

(** [df[names]] read by rows ([c] is the projection to these columns);
    [KeyError] when a name is not a column. *)
Definition frame_series {A} (names : list string) (c : Movie -> A)
    (df : DataFrame) : result (list A) :=
  if bool_decide (names ⊆ columns df) then Ok (c <$> data df)
  else Raise KeyError.

(** Positional selection on one column; [None] when a position is out
    of bounds. *)
Definition take_positions {A} (pos : list nat) (l : list A) : option (list A) :=
  mapM (fun i => l !! i) pos.

(** [df.iloc[pos]] *)
Definition frame_iloc (pos : list nat) (df : DataFrame) : option DataFrame :=
  ix ← take_positions pos (index df);
  rows ← take_positions pos (data df);
  md ← match metadata df with
        | None => Some None
        | Some col => Some <$> take_positions pos col
        end;
  Some {| columns := columns df; index := ix; data := rows; metadata := md |}.

(** [df.head(n)] *)
Definition frame_head (n : nat) (df : DataFrame) : DataFrame :=
  {| columns := columns df;
     index := take n (index df);
     data := take n (data df);
     metadata := take n <$> metadata df |}.

(** [list(enumerate(l))] *)
Definition enumerate {A} (l : list A) : list (nat * A) :=
  imap (fun i x => (i, x)) l.

(** ** Loading *)

Section Load.
(** The text-to-number parser of [pd.to_numeric]; a text it rejects is
    coerced to NaN under [errors='coerce']. *)
Variable parse_number : string -> option Q.

Definition to_numeric (c : cell) : option Q :=
  match c with
  | NaN => None
  | Str s => parse_number s
  | Num q => Some q
  end.

(** What lines 11-15 leave of one row: nothing when the title is
    missing ([dropna(subset=['Series_Title'])]), otherwise the row with
    year and rating made numeric and genre and stars filled. *)
Definition load_row (r : Raw.Row) : option Movie :=
  match Raw.Series_Title r with
  | None => None
  | Some title =>
      Some {| Poster_Link := Raw.Poster_Link r;
              Series_Title := title;
              Released_Year := to_numeric (Raw.Released_Year r);
              Genre := fillna "" (Raw.Genre r);
              IMDB_Rating := to_numeric (Raw.IMDB_Rating r);
              Overview := Raw.Overview r;
              Director := Raw.Director r;
              Star1 := fillna "" (Raw.Star1 r);
              Star2 := fillna "" (Raw.Star2 r);
              Star3 := fillna "" (Raw.Star3 r);
              Star4 := fillna "" (Raw.Star4 r) |}
  end.

(** [load_data]: the argument is what [pd.read_csv] parsed.  The rows
    are labelled 0, 1, ... by [read_csv]; [dropna] removes rows and
    keeps the labels of the others (the index is not reset). *)
Definition load_data (csv : list Raw.Row) : DataFrame :=
  let kept := omap (fun '(i, r) => pair i <$> load_row r) (enumerate csv) in
  {| columns := csv_columns;
     index := kept.*1;
     data := kept.*2;
     metadata := None |}.
End Load.

(** ** The store of frames *)

(** A frame object is named by its position in the store; a new object
    goes to the end, so that objects are never moved. *)
Definition ref := nat.
Definition store := list DataFrame.

Definition M (A : Type) : Type := store -> result A * store.

#[export] Instance M_ret : MRet M := fun A a s => (Ok a, s).
#[export] Instance M_bind : MBind M := fun A B f m s =>
  match m s with
  | (Ok a, s') => f a s'
  | (Raise e, s') => (Raise e, s')
  end.

Definition raise {A} (e : error) : M A := fun s => (Raise e, s).

(** A value or an exception computed without the store. *)
Definition lift {A} (x : result A) : M A := fun s => (x, s).

(** A new object. *)
Definition new (df : DataFrame) : M ref := fun s => (Ok (length s), s ++ [df]).

(** The frame an object currently holds. *)
Definition get (r : ref) : M DataFrame := fun s =>
  match s !! r with
  | Some df => (Ok df, s)
  | None => (Raise Dangling, s)
  end.

(** Update of an object in place. *)
Definition put (r : ref) (df : DataFrame) : M unit := fun s =>
  match s !! r with
  | Some _ => (Ok tt, <[r := df]> s)
  | None => (Raise Dangling, s)
  end.

(** *** pandas operations *)

(** [df.copy()] *)
Definition copy (r : ref) : M ref := df ← get r; new df.

(** [df[name]], [df[names]] or an expression over columns, as the list
    of its values by row *)
Definition series {A} (names : list string) (c : Movie -> A) (r : ref)
  : M (list A) :=
  df ← get r; lift (frame_series names c df).

(** [df[key]] *)
Definition getitem (r : ref) (k : key) : M ref :=
  df ← get r; new (frame_getitem k df).

(** [df.index[i]] *)
Definition index_at (r : ref) (i : nat) : M nat :=
  df ← get r;
  match index df !! i with
  | Some label => mret label
  | None => raise IndexError
  end.

(** [df.iloc[pos]] *)
Definition iloc (r : ref) (pos : list nat) : M ref :=
  df ← get r;
  match frame_iloc pos df with
  | Some df' => new df'
  | None => raise IndexError
  end.

(** [df.head(n)] *)
Definition head (r : ref) (n : nat) : M ref :=
  df ← get r; new (frame_head n df).

(** [df['metadata'] = col]: assigns in place; a new column name goes to
    the end of the columns. *)
Definition setitem_metadata (r : ref) (col : list (option string)) : M unit :=
  df ← get r;
  put r {| columns := if bool_decide ("metadata" ∈ columns df)
                      then columns df else columns df ++ ["metadata"];
           index := index df;
           data := data df;
           metadata := Some col |}.

(** [df['metadata']] *)
Definition getitem_metadata (r : ref) : M (list (option string)) :=
  df ← get r;
  match metadata df with
  | Some col => mret col
  | None => raise KeyError
  end.

(** ** Python and numpy pieces *)

(** [any(p(x) for x in l)] *)
Definition any {A} (p : A -> bool) (l : list A) : bool := existsb p l.

(** [g in x] on two strings: [g] occurs in [x]. *)
Fixpoint contains (g x : string) : bool :=
  String.prefix g x ||
  match x with
  | EmptyString => false
  | String _ x' => contains g x'
  end.

(** [s in l] for a string and a list of strings *)
Definition str_in (s : string) (l : list string) : bool :=
  existsb (String.eqb s) l.

(** [y in years] for a float cell and a list of integers; NaN equals
    nothing. *)
Definition year_in (y : option Q) (years : list Z) : bool :=
  match y with
  | None => false
  | Some q => existsb (fun z => Qeq_bool q (inject_Z z)) years
  end.

(** [x >= rating] on a float cell; a comparison with NaN is false. *)
Definition float_ge (x : option Q) (rating : Q) : bool :=
  match x with
  | None => false
  | Some q => Qle_bool rating q
  end.

Definition Qltb (x y : Q) : bool := negb (Qle_bool y x).

(** Insertion into a sorted list: [x] passes every [y] with [after y x]. *)
Fixpoint insert_by {A} (after : A -> A -> bool) (x : A) (l : list A) : list A :=
  match l with
  | [] => [x]
  | y :: l' => if after y x then y :: insert_by after x l' else x :: y :: l'
  end.

(** [sorted(l, key=key, reverse=True)]: descending by key and stable, as
    Python guarantees: an element passes only strictly greater ones, so
    equal keys keep the order they came in. *)
Definition sorted_reverse {A} (key : A -> Q) (l : list A) : list A :=
  foldr (insert_by (fun y x => Qltb (key x) (key y))) [] l.

(** [l[i:j]] *)
Definition slice {A} (i j : nat) (l : list A) : list A := take (j - i) (drop i l).

Definition matrix := list (list Q).

(** ** The similarity matrix *)

(** The configuration [TfidfVectorizer(...)] is created with. *)
Record TfidfVectorizer := { stop_words : option string }.

(** [a + b] on text cells: NaN where either is NaN. *)
Definition str_add (a b : option string) : option string :=
  x ← a; y ← b; Some (x +:+ y).

Infix "+." := str_add (at level 50, left associativity).

(** The expression of lines 22-23 on one row. *)
Definition metadata_of (m : Movie) : option string :=
  Some (fillna "" (Overview m)) +. Some " " +. Some (Genre m) +. Some " " +.
  Director m +. Some " " +.
  Some (Star1 m) +. Some " " +. Some (Star2 m) +. Some " " +.
  Some (Star3 m) +. Some " " +. Some (Star4 m).

Section Similarity.
(** scikit-learn: the tf-idf matrix type and the two functions used.
    [fit_transform] raises [ValueError] on a NaN document; on text
    documents it returns the matrix or raises, as it does with
    [ValueError] when no term is left ("empty vocabulary; perhaps the
    documents only contain stop words"), which includes no document at
    all. *)
Variable sparse : Type.
Variable fit_transform : TfidfVectorizer -> list string -> result sparse.
Variable cosine_similarity : sparse -> matrix.

Definition build_similarity_matrix (data : ref) : M matrix :=
  col ← series ["Overview"; "Genre"; "Director"; "Star1"; "Star2"; "Star3";
                "Star4"] metadata_of data;
  setitem_metadata data col;;
  let tfidf := {| stop_words := Some "english" |} in
  docs ← getitem_metadata data;
  match mapM id docs with
  | None => raise ValueError
  | Some texts =>
      tfidf_matrix ← lift (fit_transform tfidf texts);
      mret (cosine_similarity tfidf_matrix)
  end.
End Similarity.

(** ** Content-based recommendation *)

Definition recommend_content (title : string) (df : ref) (sim_matrix : matrix)
  : M ref :=
  titles ← series ["Series_Title"] Series_Title df;
  if negb (bool_decide (title ∈ titles)) then new empty_frame
  else
    sel ← getitem df (Mask ((fun t => String.eqb t title) <$> titles));
    idx ← index_at sel 0;
    match sim_matrix !! idx with
    | None => raise IndexError
    | Some row =>
        let scores := enumerate row in
        let scores := slice 1 11 (sorted_reverse snd scores) in
        let movie_indices := fst <$> scores in
        iloc df movie_indices
    end.

(** ** Attribute-based recommendation *)

Section Attributes.
(** The indexer pandas computes for
    [sort_values(by="IMDB_Rating", ascending=False)] from the rating
    column, with the default [kind='quicksort'] and
    [na_position='last']. *)
Variable argsort : list (option Q) -> list nat.

Definition sort_values_rating_desc (r : ref) : M ref :=
  ratings ← series ["IMDB_Rating"] IMDB_Rating r;
  iloc r (argsort ratings).

Definition recommend_attributes (df : ref) (genres stars : list string)
    (years : list Z) (rating : Q) : M ref :=
  filtered ← copy df;
  filtered ← (if bool_decide (genres ≠ []) then
                col ← series ["Genre"] Genre filtered;
                getitem filtered
                  (apply (fun x => any (fun g => contains g x) genres) col)
              else mret filtered);
  filtered ← (if bool_decide (stars ≠ []) then
                col ← series ["Star1"; "Star2"; "Star3"; "Star4"]
                        (fun m => [Star1 m; Star2 m; Star3 m; Star4 m])
                        filtered;
                getitem filtered
                  (apply (fun row => any (fun star => str_in star stars) row)
                     col)
              else mret filtered);
  filtered ← (if bool_decide (years ≠ []) then
                col ← series ["Released_Year"] Released_Year filtered;
                getitem filtered (apply (fun y => year_in y years) col)
              else mret filtered);
  col ← series ["IMDB_Rating"] IMDB_Rating filtered;
  filtered ← getitem filtered (Mask ((fun x => float_ge x rating) <$> col));
  sorted ← sort_values_rating_desc filtered;
  head sorted 10.
End Attributes.

(** ** Poster validation *)

(** What [requests.head(url, timeout=2)] gave back, as far as line 34
    reads it: the status code and [headers.get('Content-Type')]. *)
Record Response := {
  status_code : Z;
  content_type : option string
}.

Section Poster.
(** The request; [None] when it raised (no connection, timeout, a
    malformed url, ...). *)
Variable requests_head : string -> option Response.

(** Lines 31-36.  The bare [except] turns every exception into
    [False]. *)
Definition is_valid_image (url : string) : bool :=
  match requests_head url with
  | Some r =>
      bool_decide (status_code r = 200%Z) &&
      contains "image" (default "" (content_type r))
  | None => false
  end.
End Poster.

(** ** What the page shows *)

(** What the sidebar of lines 72-95 hands over: in the first mode the
    title of the select box (whose first option is the empty string),
    with [genres = []], [stars = []] and [min_rating = 0.0]; in the
    second the three multiselects and the slider, with
    [selected_title = ""]. *)
Inductive sidebar :=
| FindSimilarMovies (selected_title : string)
| FilterByAttributes (genres stars : list string) (years : list Z)
    (min_rating : Q).

Section Page.
Variable argsort : list (option Q) -> list nat.

(** Line 106: [df.sort_values(by="IMDB_Rating", ascending=False).head(10)] *)
Definition top_rated (df : ref) : M ref :=
  sorted ← sort_values_rating_desc argsort df;
  head sorted 10.

(** Lines 101-106: the frame that is displayed.  A string or a list
    counts as true when it is not empty. *)
Definition results (inputs : sidebar) (df : ref) (similarity_matrix : matrix)
  : M ref :=
  match inputs with
  | FindSimilarMovies selected_title =>
      if bool_decide (selected_title ≠ "") then
        recommend_content selected_title df similarity_matrix
      else top_rated df
  | FilterByAttributes genres stars years min_rating =>
      if bool_decide (genres ≠ []) || bool_decide (stars ≠ [])
         || bool_decide (years ≠ []) then
        recommend_attributes argsort df genres stars years min_rating
      else top_rated df
  end.
End Page.

(** [results.empty] of line 109: some axis of the frame has length 0.
    When it holds the page writes "No matching movies found" instead of
    the films. *)
Definition frame_empty (df : DataFrame) : bool :=
  bool_decide (columns df = []) || bool_decide (index df = []).

(** ** What pandas promises of the sort, and the sorts used below *)

(** [a] may stand before [b] in a descending column with NaN last. *)
Definition rating_ge (a b : option Q) : Prop :=
  match a, b with
  | _, None => True
  | None, Some _ => False
  | Some x, Some y => (y <= x)%Q
  end.

(** The documented result of the indexer: a permutation of the positions
    that puts the column in descending order, NaN last.  With the default
    [kind='quicksort'] nothing is promised about the order of equal
    values ("mergesort and stable are the only stable algorithms"). *)
Definition argsort_contract (argsort : list (option Q) -> list nat) : Prop :=
  forall col,
    argsort col ≡ₚ seq 0 (length col) /\
    forall vs, take_positions (argsort col) col = Some vs ->
               StronglySorted rating_ge vs.

(** [b] strictly after [a]: [a] is a number and [b] is NaN or smaller. *)
Definition rating_gtb (a b : option Q) : bool :=
  match a, b with
  | None, _ => false
  | Some _, None => true
  | Some x, Some y => Qltb y x
  end.

Definition argsort_by (after : option Q -> option Q -> bool)
    (col : list (option Q)) : list nat :=
  fst <$> foldr (insert_by (fun y x => after (snd y) (snd x))) [] (enumerate col).

(** Equal ratings keep their order ([kind='stable']). *)
Definition stable_argsort : list (option Q) -> list nat := argsort_by rating_gtb.

(** *** The default sort

    With [kind='quicksort'] pandas hands the column to numpy's
    [argsort].  What follows is numpy's generic quicksort on an array of
    positions ([aquicksort_] of [npysort/quicksort.cpp]): median of
    three and partition while a range has more than 17 entries,
    insertion sort below that, heapsort once the depth is used up.
    [Tag::less] on numbers without NaN is [<]. *)

Section Quicksort.
(** The values; [tosort] holds positions in them. *)
Variable v : list Q.












End Quicksort.




(** * Vocabulary of the statements *)

(** A frame as [load_data] makes it and row selection keeps it: the csv
    columns are there, and positions mean the same row in the labels,
    the rows and the derived column. *)
Definition wf_frame (df : DataFrame) : Prop :=
  csv_columns ⊆ columns df /\
  length (index df) = length (data df) /\
  forall col, metadata df = Some col -> length col = length (data df).

(** The catalog after [data['metadata'] = ...]. *)
Definition with_metadata (df : DataFrame) : DataFrame :=
  {| columns := if bool_decide ("metadata" ∈ columns df)
                then columns df else columns df ++ ["metadata"];
     index := index df;
     data := data df;
     metadata := Some (metadata_of <$> data df) |}.

(** Whatever the outcome, the store afterwards is the store before with
    new objects behind it: no object that existed is changed. *)
Definition allocates_only {A} (m : M A) : Prop :=
  forall s, s `prefix_of` (m s).2.

(** [m] returns an object holding [res], adding objects only. *)
Definition yields (m : M ref) (s : store) (res : DataFrame) : Prop :=
  exists r ext, m s = (Ok r, s ++ ext) /\ (s ++ ext) !! r = Some res.

(** [m] has the outcome [o]: it returns an object holding that frame, or
    raises that exception; either way it adds objects only. *)
Definition computes (m : M ref) (s : store) (o : result DataFrame) : Prop :=
  match o with
  | Ok res => yields m s res
  | Raise e => exists ext, m s = (Raise e, s ++ ext)
  end.

(** *** The frames of [recommend_attributes], without the store *)

(** One optional selection. *)
Definition select_if {A} (b : bool) (names : list string) (c : Movie -> A)
    (f : A -> bool) (df : DataFrame) : result DataFrame :=
  if b then col ← frame_series names c df; Ok (frame_getitem (apply f col) df)
  else Ok df.

(** The sort of line 64. *)
Definition frame_sort (argsort : list (option Q) -> list nat) (df : DataFrame)
  : result DataFrame :=
  ratings ← frame_series ["IMDB_Rating"] IMDB_Rating df;
  match frame_iloc (argsort ratings) df with
  | Some df' => Ok df'
  | None => Raise IndexError
  end.

(** Lines 52-64 on frames: what [recommend_attributes] does to the copy
    of the catalog, step by step. *)
Definition attributes_frame (argsort : list (option Q) -> list nat)
    (genres stars : list string) (years : list Z) (rating : Q)
    (df : DataFrame) : result DataFrame :=
  f1 ← select_if (bool_decide (genres ≠ [])) ["Genre"] Genre
         (fun x => any (fun g => contains g x) genres) df;
  f2 ← select_if (bool_decide (stars ≠ [])) ["Star1"; "Star2"; "Star3"; "Star4"]
         (fun m => [Star1 m; Star2 m; Star3 m; Star4 m])
         (fun row => any (fun star => str_in star stars) row) f1;
  f3 ← select_if (bool_decide (years ≠ [])) ["Released_Year"] Released_Year
         (fun y => year_in y years) f2;
  col ← frame_series ["IMDB_Rating"] IMDB_Rating f3;
  srt ← frame_sort argsort
          (frame_getitem (Mask ((fun x => float_ge x rating) <$> col)) f3);
  Ok (frame_head 10 srt).

(** Where a chain of selections stands when [rows] are the rows that
    passed so far: at a frame holding them; at a frame without columns,
    which only a selection on no rows leaves behind; or at the
    [KeyError] of a later column access on such a frame. *)
Inductive stage_state (rows : list Movie) : result DataFrame -> Prop :=
| stage_full fr :
    wf_frame fr -> data fr = rows -> stage_state rows (Ok fr)
| stage_bare fr :
    columns fr = [] -> rows = [] -> stage_state rows (Ok fr)
| stage_raised :
    rows = [] -> stage_state rows (Raise KeyError).

(** *** The selections as predicates *)

(** The selections of one call on one row: each of the three optional
    ones counts only when its argument is non-empty. *)
Definition passes (genres stars : list string) (years : list Z) (rating : Q)
    (m : Movie) : bool :=
  (if bool_decide (genres ≠ []) then any (fun g => contains g (Genre m)) genres
   else true) &&
  (if bool_decide (stars ≠ [])
   then any (fun star => str_in star stars) [Star1 m; Star2 m; Star3 m; Star4 m]
   else true) &&
  (if bool_decide (years ≠ []) then year_in (Released_Year m) years else true) &&
  float_ge (IMDB_Rating m) rating.

(** [g] is a substring of [x]. *)
Definition occurs_in (g x : string) : Prop := exists a b, x = a +:+ g +:+ b.

(** [a] may stand before [b] in the sorted frame. *)
Definition by_rating (a b : Movie) : Prop :=
  rating_ge (IMDB_Rating a) (IMDB_Rating b).


(** [a] may stand before [b] in a row of scores sorted downwards. *)
Definition score_ge (a b : nat * Q) : Prop := (b.2 <= a.2)%Q.

(** The labels and titles of the frame a call returns. *)
Definition returned_rows (x : result ref * store) : result (list (nat * string)) :=
  match x with
  | (Ok r, s) =>
      match s !! r with
      | Some df => Ok (zip (index df) (Series_Title <$> data df))
      | None => Raise Dangling
      end
  | (Raise e, _) => Raise e
  end.

(** The outcome of [recommend_attributes] when [passing] are the passing
    rows in the order of the sort: a frame holding the first ten of
    them; or, only when nothing passes, the [KeyError] of a column
    access on the frame without columns that a selection on no rows
    leaves. *)
Definition returns_top_ten (x : result ref * store) (passing : list Movie)
  : Prop :=
  (exists r s' res,
     x = (Ok r, s') /\ s' !! r = Some res /\ data res = take 10 passing) \/
  (passing = [] /\ exists s', x = (Raise KeyError, s')).

(** [a] comes before [b] when a row of scores is sorted downwards and
    equal scores stay in the order of their positions. *)
Definition stable_desc (a b : nat * Q) : Prop :=
  (b.2 < a.2)%Q \/ ((b.2 == a.2)%Q /\ a.1 < b.1).

(** The rows of a frame with their labels. *)
Definition lrows (df : DataFrame) : list (nat * Movie) :=
  zip (index df) (data df).

(** Where [recommend_attributes] stands after some of its selections:
    with a frame of these labelled rows, with a frame without columns,
    or at a [KeyError]. *)
Inductive phase :=
| Full (rows : list (nat * Movie))
| Bare
| Raised.

(** One optional selection (lines 52-60): applied to no rows it leaves
    a frame without columns, applied to such a frame it raises. *)
Definition phase_select (b : bool) (p : Movie -> bool) (ph : phase) : phase :=
  match ph with
  | Full rows =>
      if b then
        match rows with
        | [] => Bare
        | _ => Full (List.filter (fun lm => p lm.2) rows)
        end
      else Full rows
  | Bare => if b then Raised else Bare
  | Raised => Raised
  end.

(** The selection on the rating (line 62), which reads a column. *)
Definition phase_rating (rating : Q) (ph : phase) : phase :=
  match ph with
  | Full rows => Full (List.filter (fun lm => float_ge (IMDB_Rating lm.2) rating) rows)
  | Bare | Raised => Raised
  end.

Definition attributes_phase (genres stars : list string) (years : list Z)
    (rating : Q) (rows : list (nat * Movie)) : phase :=
  phase_rating rating
    (phase_select (bool_decide (years ≠ []))
       (fun m => year_in (Released_Year m) years)
       (phase_select (bool_decide (stars ≠ []))
          (fun m => any (fun star => str_in star stars)
                      [Star1 m; Star2 m; Star3 m; Star4 m])
          (phase_select (bool_decide (genres ≠ []))
             (fun m => any (fun g => contains g (Genre m)) genres)
             (Full rows)))).

(** A frame, or an exception, that is at a phase; [cols] are the columns
    of the catalog. *)
Inductive at_phase (cols : list string) : phase -> result DataFrame -> Prop :=
| at_full fr :
    wf_frame fr -> columns fr = cols -> at_phase cols (Full (lrows fr)) (Ok fr)
| at_bare fr :
    columns fr = [] -> at_phase cols Bare (Ok fr)
| at_raised :
    at_phase cols Raised (Raise KeyError).

Definition no_rows {A} (l : list A) : bool :=
  match l with
  | [] => true
  | _ => false
  end.

(** Some selection that is applied meets no rows: the genres the empty
    catalog, the stars no row left by the genres, or the years no row
    left by genres and stars. *)
Definition meets_no_rows (genres stars : list string) (years : list Z)
    (rows : list Movie) : bool :=
  let rows1 :=
    List.filter (fun m => if bool_decide (genres ≠ [])
                          then any (fun g => contains g (Genre m)) genres
                          else true) rows in
  let rows2 :=
    List.filter (fun m => if bool_decide (stars ≠ [])
                          then any (fun star => str_in star stars)
                                 [Star1 m; Star2 m; Star3 m; Star4 m]
                          else true) rows1 in
  (bool_decide (genres ≠ []) && no_rows rows) ||
  (bool_decide (stars ≠ []) && no_rows rows1) ||
  (bool_decide (years ≠ []) && no_rows rows2).

(** * Sample data *)

Definition movie (title : string) (year : Z) (rating : Q)
    (genre overview director star : string) : Movie :=
  {| Poster_Link := None;
     Series_Title := title;
     Released_Year := Some (inject_Z year);
     Genre := genre;
     IMDB_Rating := Some rating;
     Overview := Some overview;
     Director := Some director;
     Star1 := star; Star2 := ""; Star3 := ""; Star4 := "" |}.

Definition inception : Movie :=
  movie "Inception" 2010 (88 # 10) "Action, Adventure, Sci-Fi"
        "A thief who steals corporate secrets" "Christopher Nolan"
        "Leonardo DiCaprio".

Definition interstellar : Movie :=
  movie "Interstellar" 2014 (86 # 10) "Adventure, Drama, Sci-Fi"
        "A team of explorers travel through a wormhole" "Christopher Nolan"
        "Matthew McConaughey".

Definition sample_catalog : DataFrame :=
  {| columns := csv_columns; index := [0; 1];
     data := [inception; interstellar]; metadata := None |}.

(** A catalog with a film whose rating cell did not parse. *)
Definition unrated : Movie :=
  {| Poster_Link := None;
     Series_Title := "Apollo 13";
     Released_Year := None;
     Genre := "Adventure, Drama, History";
     IMDB_Rating := None;
     Overview := Some "NASA must devise a strategy to return Apollo 13";
     Director := Some "Ron Howard";
     Star1 := "Tom Hanks"; Star2 := ""; Star3 := ""; Star4 := "" |}.

Definition mixed_catalog : DataFrame :=
  {| columns := csv_columns; index := [0; 1; 2];
     data := [inception; unrated; interstellar]; metadata := None |}.

(** Two films whose text fields are the same, so that their documents
    are equal and every cosine between them is that of a document with
    itself. *)
Definition first_cut : Movie :=
  movie "Blade Runner" 1982 (81 # 10) "Action, Sci-Fi, Thriller"
        "A blade runner must pursue replicants" "Ridley Scott" "Harrison Ford".

Definition final_cut : Movie :=
  movie "Blade Runner: The Final Cut" 2007 (81 # 10) "Action, Sci-Fi, Thriller"
        "A blade runner must pursue replicants" "Ridley Scott" "Harrison Ford".

Definition twin_catalog : DataFrame :=
  {| columns := csv_columns; index := [0; 1];
     data := [first_cut; final_cut]; metadata := None |}.

Definition twin_matrix : matrix := [[1; 1]; [1; 1]]%Q.


(** A stand-in for the vectorizer in examples: the documents as they
    are, and [ValueError] when there is none. *)
Definition sample_fit_transform (tfidf : TfidfVectorizer) (docs : list string)
  : result (list string) :=
  match docs with
  | [] => Raise ValueError
  | _ => Ok docs
  end.

(** A csv row with the given title, director and rating. *)
Definition raw_row (title director : option string) (rating : Q) : Raw.Row :=
  {| Raw.Poster_Link := None;
     Raw.Series_Title := title;
     Raw.Released_Year := Num 2010;
     Raw.Genre := Some "Drama";
     Raw.IMDB_Rating := Num rating;
     Raw.Overview := Some "A story";
     Raw.Director := director;
     Raw.Star1 := None; Raw.Star2 := None; Raw.Star3 := None;
     Raw.Star4 := None |}.

(** A csv of three rows, the first without a title. *)
Definition sample_csv : list Raw.Row :=
  [raw_row None (Some "X") 8; raw_row (Some "A") (Some "Y") 8;
   raw_row (Some "B") (Some "Z") 8].

(** A matrix for two rows whose diagonal is the strict maximum of each
    row. *)
Definition diagonal_matrix : matrix := [[1; 1 # 5]; [1 # 5; 1]]%Q.

(** A number parser that accepts nothing; the sample rows hold numbers
    already. *)
Definition no_parse (s : string) : option Q := None.

(** * Properties *)

(** ** Selection by mask and by position *)

Lemma mask_select_fmap {A} (p : A -> bool) (l : list A) :
  mask_select (p <$> l) l = List.filter p l.
Proof.
  induction l as [|x l IH]; [done|].
  rewrite fmap_cons. simpl. rewrite IH. by destruct (p x).
Qed.

Lemma length_mask_select {A B} (mask : list bool) (l : list A) (k : list B) :
  length l = length k ->
  length (mask_select mask l) = length (mask_select mask k).
Proof.
  revert l k. induction mask as [|b mask IH]; intros [|x l] [|y k] Hlen;
    simpl in *; try done.
  destruct b; simpl; auto.
Qed.

Lemma mapM_Some_omap {A B} (f : A -> option B) (l : list A) (k : list B) :
  mapM f l = Some k -> omap f l = k.
Proof.
  rewrite mapM_Some. induction 1 as [|x y l k Hxy _ IH]; csimpl; [done|].
  rewrite Hxy. by f_equal.
Qed.

Lemma omap_lookup_seq {A} (l : list A) : omap (fun i => l !! i) (seq 0 (length l)) = l.
Proof.
  induction l as [|x l IH] using rev_ind; [done|].
  rewrite length_app, seq_app, omap_app. csimpl.
  rewrite lookup_app_r, Nat.sub_diag by lia. csimpl.
  f_equal. rewrite <- IH at 2.
  apply list_omap_ext. apply Forall2_same_length_lookup_2; [done|].
  intros i a b Ha Hb. assert (a = b) as <- by congruence.
  apply lookup_seq in Ha as [-> Hi]. simpl. by rewrite lookup_app_l.
Qed.

Lemma take_positions_perm {A} (pos : list nat) (l rows : list A) :
  pos ≡ₚ seq 0 (length l) -> take_positions pos l = Some rows -> rows ≡ₚ l.
Proof.
  intros Hperm Htake. apply mapM_Some_omap in Htake as <-.
  rewrite Hperm. by rewrite omap_lookup_seq.
Qed.

Lemma take_positions_fmap {A B} (f : A -> B) pos (l rows : list A) :
  take_positions pos l = Some rows ->
  take_positions pos (f <$> l) = Some (f <$> rows).
Proof.
  unfold take_positions. rewrite !mapM_Some. intros H.
  apply Forall2_fmap_r. eapply Forall2_impl; [exact H|].
  intros i x Hx. simpl in *. by rewrite list_lookup_fmap, Hx.
Qed.

(** The first selected element is the one at the first true position. *)
Lemma mask_select_first {A} (mask : list bool) (l : list A) (p : nat) (v : A) :
  mask !! p = Some true ->
  (forall j, j < p -> mask !! j = Some false) ->
  l !! p = Some v ->
  mask_select mask l !! 0 = Some v.
Proof.
  revert mask l. induction p as [|p IH]; intros [|b mask] [|x l] Hp Hlt Hv;
    try done.
  - simpl in *. by injection Hp as ->.
  - simpl in *. assert (b = false) as ->.
    { specialize (Hlt 0 ltac:(lia)). by injection Hlt. }
    apply IH; [done| |done]. intros j Hj. apply (Hlt (S j)). lia.
Qed.

Lemma take_positions_seq (pos : list nat) (n : nat) :
  Forall (fun i => i < n) pos -> take_positions pos (seq 0 n) = Some pos.
Proof.
  intros H. apply mapM_Some. apply Forall_Forall2_diag.
  eapply Forall_impl; [exact H|]. intros i Hi. simpl. by apply lookup_seq.
Qed.

Lemma take_positions_in_range {A} (pos : list nat) (l : list A) :
  Forall (fun i => i < length l) pos -> is_Some (take_positions pos l).
Proof.
  intros H. apply mapM_is_Some. eapply Forall_impl; [exact H|].
  intros i Hi. simpl. by apply lookup_lt_is_Some.
Qed.

(** ** Running computations on a store *)

Lemma bind_run {A B} (m : M A) (f : A -> M B) (s : store) :
  (m ≫= f) s = match m s with
               | (Ok a, s') => f a s'
               | (Raise e, s') => (Raise e, s')
               end.
Proof. reflexivity. Qed.

Lemma bind_run_ok {A B} (m : M A) (f : A -> M B) (s s' : store) (a : A) :
  m s = (Ok a, s') -> (m ≫= f) s = f a s'.
Proof. intros H. by rewrite bind_run, H. Qed.

Lemma get_run (r : ref) (s : store) (df : DataFrame) :
  s !! r = Some df -> get r s = (Ok df, s).
Proof. intros H. unfold get. by rewrite H. Qed.

Lemma series_run {A} (names : list string) (c : Movie -> A) (r : ref)
    (s : store) (df : DataFrame) :
  s !! r = Some df -> series names c r s = (frame_series names c df, s).
Proof.
  intros H. unfold series. by rewrite (bind_run_ok _ _ _ _ _ (get_run _ _ _ H)).
Qed.

Lemma frame_series_ok {A} (names : list string) (c : Movie -> A) (df : DataFrame) :
  names ⊆ columns df -> frame_series names c df = Ok (c <$> data df).
Proof. intros H. unfold frame_series. by rewrite bool_decide_eq_true_2. Qed.

Lemma frame_series_bare {A} (name : string) (names : list string)
    (c : Movie -> A) (df : DataFrame) :
  columns df = [] -> frame_series (name :: names) c df = Raise KeyError.
Proof.
  intros H. unfold frame_series. rewrite bool_decide_eq_false_2; [done|].
  rewrite H. intros Hsub. specialize (Hsub name). rewrite elem_of_nil in Hsub.
  apply Hsub. left.
Qed.

Lemma series_run_ok {A} (names : list string) (c : Movie -> A) (r : ref)
    (s : store) (df : DataFrame) :
  s !! r = Some df -> names ⊆ columns df ->
  series names c r s = (Ok (c <$> data df), s).
Proof. intros H Hn. by rewrite (series_run _ _ _ _ _ H), frame_series_ok. Qed.

Lemma getitem_run (r : ref) (k : key) (s : store) df :
  s !! r = Some df -> getitem r k s = (Ok (length s), s ++ [frame_getitem k df]).
Proof. intros H. unfold getitem. by rewrite (bind_run_ok _ _ _ _ _ (get_run _ _ _ H)). Qed.

Lemma index_at_run (r : ref) (i label : nat) (s : store) df :
  s !! r = Some df -> index df !! i = Some label -> index_at r i s = (Ok label, s).
Proof.
  intros H Hi. unfold index_at.
  rewrite (bind_run_ok _ _ _ _ _ (get_run _ _ _ H)). by rewrite Hi.
Qed.

Lemma iloc_run (r : ref) pos (s : store) df df' :
  s !! r = Some df -> frame_iloc pos df = Some df' ->
  iloc r pos s = (Ok (length s), s ++ [df']).
Proof.
  intros H Hiloc. unfold iloc.
  rewrite (bind_run_ok _ _ _ _ _ (get_run _ _ _ H)). by rewrite Hiloc.
Qed.

(** *** Computations that only add objects *)

Lemma allocates_only_ret {A} (a : A) : allocates_only (mret a).
Proof. intros s. done. Qed.

Lemma allocates_only_raise {A} (e : error) : allocates_only (@raise A e).
Proof. intros s. done. Qed.

Lemma allocates_only_lift {A} (x : result A) : allocates_only (lift x).
Proof. intros s. done. Qed.

Lemma allocates_only_new (df : DataFrame) : allocates_only (new df).
Proof. intros s. by apply prefix_app_r. Qed.

Lemma allocates_only_get (r : ref) : allocates_only (get r).
Proof. intros s. unfold get. case_match; simpl; reflexivity. Qed.

Lemma allocates_only_bind {A B} (m : M A) (f : A -> M B) :
  allocates_only m -> (forall a, allocates_only (f a)) -> allocates_only (m ≫= f).
Proof.
  intros Hm Hf s. rewrite bind_run. specialize (Hm s).
  destruct (m s) as [[a|e] s']; simpl in *; [|done].
  etrans; [exact Hm|apply Hf].
Qed.

Create HintDb alloc.
#[local] Hint Resolve allocates_only_ret allocates_only_raise
  allocates_only_lift allocates_only_new allocates_only_get : alloc.

Ltac alloc_step :=
  first [ apply allocates_only_bind; [|intros ?]
        | match goal with
          | |- allocates_only (if ?b then _ else _) => destruct b
          | |- allocates_only (match ?x with _ => _ end) => destruct x
          end
        | solve [auto with alloc] ].

Lemma allocates_only_copy (r : ref) : allocates_only (copy r).
Proof. unfold copy. repeat alloc_step. Qed.

Lemma allocates_only_series {A} (names : list string) (c : Movie -> A) (r : ref) :
  allocates_only (series names c r).
Proof. unfold series. repeat alloc_step. Qed.

Lemma allocates_only_getitem (r : ref) (k : key) :
  allocates_only (getitem r k).
Proof. unfold getitem. repeat alloc_step. Qed.

Lemma allocates_only_index_at (r : ref) (i : nat) : allocates_only (index_at r i).
Proof. unfold index_at. repeat alloc_step. Qed.

Lemma allocates_only_iloc (r : ref) (pos : list nat) : allocates_only (iloc r pos).
Proof. unfold iloc. repeat alloc_step. Qed.

Lemma allocates_only_head (r : ref) (n : nat) : allocates_only (head r n).
Proof. unfold head. repeat alloc_step. Qed.

#[local] Hint Resolve allocates_only_copy allocates_only_series
  allocates_only_getitem allocates_only_index_at allocates_only_iloc
  allocates_only_head : alloc.

Lemma allocates_only_sort_values argsort (r : ref) :
  allocates_only (sort_values_rating_desc argsort r).
Proof. unfold sort_values_rating_desc. repeat alloc_step. Qed.

#[local] Hint Resolve allocates_only_sort_values : alloc.

Lemma allocates_only_recommend_content title df sim_matrix :
  allocates_only (recommend_content title df sim_matrix).
Proof. unfold recommend_content. repeat alloc_step. Qed.

Lemma allocates_only_recommend_attributes argsort df genres stars years rating :
  allocates_only (recommend_attributes argsort df genres stars years rating).
Proof. unfold recommend_attributes. repeat alloc_step. Qed.

(** ** Insertion sort *)

Section InsertBy.
Context {A : Type} (after : A -> A -> bool).

Lemma insert_by_perm (x : A) (l : list A) : insert_by after x l ≡ₚ x :: l.
Proof.
  induction l as [|y l IH]; simpl; [done|].
  destruct (after y x); [|done].
  rewrite IH. apply perm_swap.
Qed.

Lemma foldr_insert_by_perm (l : list A) : foldr (insert_by after) [] l ≡ₚ l.
Proof.
  induction l as [|x l IH]; simpl; [done|].
  by rewrite insert_by_perm, IH.
Qed.

Context (R : relation A) `{!Transitive R}.
Hypothesis after_true : forall y x, after y x = true -> R y x.
Hypothesis after_false : forall y x, after y x = false -> R x y.

Lemma insert_by_sorted (x : A) (l : list A) :
  StronglySorted R l -> StronglySorted R (insert_by after x l).
Proof.
  induction 1 as [|y l Hl IH Hy]; simpl.
  - repeat constructor.
  - destruct (after y x) eqn:Hyx.
    + constructor; [done|]. rewrite insert_by_perm. constructor; auto.
    + constructor; [by constructor|].
      constructor; [auto|].
      eapply Forall_impl; [exact Hy|]. intros z Hz. etrans; eauto.
Qed.

Lemma foldr_insert_by_sorted (l : list A) :
  StronglySorted R (foldr (insert_by after) [] l).
Proof.
  induction l as [|x l IH]; simpl; [constructor|]. by apply insert_by_sorted.
Qed.
End InsertBy.

(** ** The order on ratings *)

#[export] Instance rating_ge_trans : Transitive rating_ge.
Proof.
  intros [x|] [y|] [z|]; simpl; try done.
  intros Hxy Hyz. eapply Qle_trans; eauto.
Qed.

Lemma rating_gtb_true (a b : option Q) : rating_gtb a b = true -> rating_ge a b.
Proof.
  destruct a as [x|], b as [y|]; simpl; try done.
  unfold Qltb. rewrite negb_true_iff. intros H.
  apply Qlt_le_weak, Qnot_le_lt. intros Hle.
  apply Qle_bool_iff in Hle. congruence.
Qed.

Lemma rating_gtb_false (a b : option Q) : rating_gtb a b = false -> rating_ge b a.
Proof.
  destruct a as [x|], b as [y|]; simpl; try done.
  unfold Qltb. rewrite negb_false_iff. apply Qle_bool_iff.
Qed.

(** ** The two sorts keep the contract *)

Lemma fst_enumerate {A} (l : list A) : (enumerate l).*1 = seq 0 (length l).
Proof.
  apply list_eq. intros i. unfold enumerate.
  rewrite list_lookup_fmap, list_lookup_imap.
  destruct (l !! i) eqn:Hi; simpl; symmetry.
  - apply lookup_seq. split; [done|]. by eapply lookup_lt_Some.
  - apply lookup_ge_None. rewrite length_seq. by apply lookup_ge_None.
Qed.

Lemma elem_of_enumerate {A} (l : list A) (i : nat) (x : A) :
  (i, x) ∈ enumerate l <-> l !! i = Some x.
Proof.
  unfold enumerate. rewrite elem_of_lookup_imap. split.
  - intros (j & y & [= -> ->] & H). done.
  - intros H. eauto.
Qed.

Lemma take_positions_enumerated {A} (l : list A) (ps : list (nat * A)) :
  ps ≡ₚ enumerate l -> take_positions ps.*1 l = Some ps.*2.
Proof.
  intros Hperm. apply mapM_Some. apply Forall2_fmap.
  apply Forall_Forall2_diag, Forall_forall. intros [i x] Hix. simpl.
  rewrite Hperm in Hix. by apply elem_of_enumerate.
Qed.

Lemma argsort_by_contract (after : option Q -> option Q -> bool) :
  (forall a b, after a b = true -> rating_ge a b) ->
  (forall a b, after a b = false -> rating_ge b a) ->
  argsort_contract (argsort_by after).
Proof.
  intros Htrue Hfalse col. unfold argsort_by.
  set (ins := insert_by _).
  assert (foldr ins [] (enumerate col) ≡ₚ enumerate col) as Hperm
    by apply foldr_insert_by_perm.
  split.
  - by rewrite Hperm, fst_enumerate.
  - intros vs Hvs. rewrite (take_positions_enumerated _ _ Hperm) in Hvs.
    injection Hvs as <-.
    apply StronglySorted_fmap
      with (R1 := fun a b : nat * option Q => rating_ge a.2 b.2); [done|].
    apply foldr_insert_by_sorted.
    + intros x y z. apply rating_ge_trans.
    + intros y x. apply Htrue.
    + intros y x. apply Hfalse.
Qed.

Lemma stable_argsort_contract : argsort_contract stable_argsort.
Proof.
  apply argsort_by_contract; [apply rating_gtb_true|apply rating_gtb_false].
Qed.

(** ** Python's [sorted] on a row of scores *)

Lemma sorted_reverse_perm {A} (key : A -> Q) (l : list A) :
  sorted_reverse key l ≡ₚ l.
Proof. apply foldr_insert_by_perm. Qed.

Lemma sorted_reverse_sorted (l : list (nat * Q)) :
  StronglySorted score_ge (sorted_reverse snd l).
Proof.
  apply foldr_insert_by_sorted.
  - intros a b c Hab Hbc. unfold score_ge in *. eapply Qle_trans; eauto.
  - intros y x. unfold Qltb, score_ge. rewrite negb_true_iff. intros H.
    apply Qlt_le_weak, Qnot_le_lt. intros Hle. apply Qle_bool_iff in Hle. congruence.
  - intros y x. unfold Qltb, score_ge. rewrite negb_false_iff. apply Qle_bool_iff.
Qed.

(** When the entry at [p] is the strict maximum of the row, it comes
    first. *)
Lemma sorted_reverse_head (row : list Q) (p : nat) (x : Q) :
  row !! p = Some x ->
  (forall j y, j <> p -> row !! j = Some y -> (y < x)%Q) ->
  exists rest, sorted_reverse snd (enumerate row) = (p, x) :: rest /\
               (p ∉ rest.*1) /\ length rest = length row - 1 /\
               Forall (fun i => i < length row) rest.*1.
Proof.
  intros Hp Hmax.
  pose proof (sorted_reverse_perm snd (enumerate row)) as Hperm.
  pose proof (sorted_reverse_sorted (enumerate row)) as Hsorted.
  assert ((p, x) ∈ sorted_reverse snd (enumerate row)) as Hin
    by (rewrite Hperm; by apply elem_of_enumerate).
  destruct (sorted_reverse snd (enumerate row)) as [|[j y] rest] eqn:Heq;
    [by apply elem_of_nil in Hin|].
  assert (row !! j = Some y) as Hj.
  { apply elem_of_enumerate. rewrite <- Hperm. left. }
  assert (j = p) as ->.
  { destruct (decide (j = p)) as [|Hne]; [done|].
    apply elem_of_cons in Hin as [[= -> ->]|Hin]; [done|].
    apply StronglySorted_inv in Hsorted as [_ Hall].
    rewrite Forall_forall in Hall. specialize (Hall _ Hin). unfold score_ge in Hall.
    simpl in Hall. specialize (Hmax j y Hne Hj).
    exfalso. by apply (Qlt_not_le _ _ Hmax). }
  assert (y = x) as -> by congruence.
  exists rest. split; [done|].
  assert (NoDup ((p, x) :: rest).*1) as Hnd.
  { rewrite Hperm, fst_enumerate. apply NoDup_seq. }
  rewrite fmap_cons in Hnd. apply NoDup_cons in Hnd as [Hnotin _].
  split; [done|]. split.
  - apply Permutation_length in Hperm. simpl in Hperm.
    unfold enumerate in Hperm. rewrite length_imap in Hperm. lia.
  - apply Forall_forall. intros i Hi.
    assert (i ∈ ((p, x) :: rest).*1) as Hi' by (rewrite fmap_cons; by right).
    rewrite Hperm, fst_enumerate in Hi'. apply elem_of_seq in Hi'. lia.
Qed.

(** ** Frames: shape and selection *)

Lemma wf_frame_mask mask df : wf_frame df -> wf_frame (frame_mask mask df).
Proof.
  intros (Hcols & Hix & Hmd). split; [done|]. split; simpl.
  - by apply length_mask_select.
  - intros col. destruct (metadata df) as [c|]; simpl; [|done].
    intros [= <-]. apply length_mask_select. by apply Hmd.
Qed.

Lemma wf_load_data parse_number (csv : list Raw.Row) :
  wf_frame (load_data parse_number csv).
Proof.
  split; [done|]. split; [|done]. unfold load_data. simpl.
  by rewrite !length_fmap.
Qed.

Lemma wf_with_metadata df : wf_frame df -> wf_frame (with_metadata df).
Proof.
  intros (Hcols & Hix & _). split; [|split; [done|]]; simpl.
  - case_bool_decide; [done|]. intros c Hc. apply elem_of_app. left. by apply Hcols.
  - intros col [= <-]. by rewrite length_fmap.
Qed.

(** The frame the recommenders are given at lines 102 and 104: loaded,
    then with the [metadata] column. *)
Lemma wf_startup parse_number (csv : list Raw.Row) :
  wf_frame (with_metadata (load_data parse_number csv)).
Proof. apply wf_with_metadata, wf_load_data. Qed.

Lemma wf_columns (name : string) df :
  wf_frame df -> name ∈ csv_columns -> name ∈ columns df.
Proof. intros (Hcols & _) Hname. by apply Hcols. Qed.

Lemma frame_iloc_in_range pos df :
  wf_frame df -> Forall (fun i => i < length (data df)) pos ->
  exists df', frame_iloc pos df = Some df' /\
              columns df' = columns df /\
              take_positions pos (index df) = Some (index df') /\
              take_positions pos (data df) = Some (data df').
Proof.
  intros (_ & Hix & Hmd) Hpos. unfold frame_iloc.
  destruct (take_positions_in_range pos (index df)) as [ix ->]; [by rewrite Hix|].
  destruct (take_positions_in_range pos (data df)) as [rows ->]; [done|].
  simpl. destruct (metadata df) as [col|]; simpl; [|eauto 10].
  destruct (take_positions_in_range pos col) as [md ->]; [by rewrite (Hmd col)|].
  simpl. eauto 10.
Qed.

Lemma frame_iloc_perm pos df :
  wf_frame df -> pos ≡ₚ seq 0 (length (data df)) ->
  exists df', frame_iloc pos df = Some df' /\
              take_positions pos (data df) = Some (data df').
Proof.
  intros Hwf Hperm.
  destruct (frame_iloc_in_range pos df Hwf) as (df' & ? & _ & _ & ?); [|eauto].
  apply Forall_forall. intros i Hi. rewrite Hperm in Hi.
  apply elem_of_seq in Hi. lia.
Qed.

(** ** Outcomes of computations *)

Lemma yields_new s df : yields (new df) s df.
Proof.
  exists (length s), [df]. split; [done|].
  by rewrite lookup_app_r, Nat.sub_diag.
Qed.

Lemma computes_bind (m : M ref) (f : ref -> M ref)
    (g : DataFrame -> result DataFrame) s o :
  computes m s o ->
  (forall r s' fr, s `prefix_of` s' -> s' !! r = Some fr ->
                   computes (f r) s' (g fr)) ->
  computes (m ≫= f) s (o ≫= g).
Proof.
  intros Hm Hf. destruct o as [fr|e]; simpl in Hm.
  - destruct Hm as (r & ext & Hrun & Hr).
    specialize (Hf r (s ++ ext) fr (prefix_app_r _ _ _ (reflexivity _)) Hr).
    change (Ok fr ≫= g) with (g fr). unfold computes, yields in *.
    rewrite (bind_run_ok _ _ _ _ _ Hrun).
    destruct (g fr) as [res|e].
    + destruct Hf as (r' & ext' & Hrun' & Hr'). exists r', (ext ++ ext').
      by rewrite app_assoc.
    + destruct Hf as (ext' & Hrun'). exists (ext ++ ext'). by rewrite app_assoc.
  - destruct Hm as (ext & Hrun). exists ext. by rewrite bind_run, Hrun.
Qed.

Lemma computes_ret (r : ref) s fr : s !! r = Some fr -> computes (mret r) s (Ok fr).
Proof. intros H. exists r, []. by rewrite app_nil_r. Qed.

Lemma computes_after_get (f : DataFrame -> M ref) (r : ref) s fr o :
  s !! r = Some fr -> computes (f fr) s o -> computes (get r ≫= f) s o.
Proof.
  intros H Hf. unfold computes, yields in *.
  by rewrite (bind_run_ok _ _ _ _ _ (get_run _ _ _ H)).
Qed.

Lemma computes_copy (r : ref) s fr : s !! r = Some fr -> computes (copy r) s (Ok fr).
Proof. intros H. eapply computes_after_get; [done|apply yields_new]. Qed.

Lemma computes_getitem (r : ref) k s fr :
  s !! r = Some fr -> computes (getitem r k) s (Ok (frame_getitem k fr)).
Proof. intros H. eapply computes_after_get; [done|apply yields_new]. Qed.

Lemma computes_head (r : ref) n s fr :
  s !! r = Some fr -> computes (head r n) s (Ok (frame_head n fr)).
Proof. intros H. eapply computes_after_get; [done|apply yields_new]. Qed.

Lemma computes_iloc (r : ref) pos s fr :
  s !! r = Some fr ->
  computes (iloc r pos) s (match frame_iloc pos fr with
                           | Some fr' => Ok fr'
                           | None => Raise IndexError
                           end).
Proof.
  intros H. eapply computes_after_get; [done|].
  destruct (frame_iloc pos fr); [apply yields_new|].
  exists []. by rewrite app_nil_r.
Qed.

Lemma computes_after_series {A} names (c : Movie -> A) (k : list A -> M ref)
    (g : list A -> result DataFrame) (r : ref) s fr :
  s !! r = Some fr ->
  (forall col, computes (k col) s (g col)) ->
  computes (series names c r ≫= k) s (frame_series names c fr ≫= g).
Proof.
  intros H Hk. specialize (Hk (c <$> data fr)).
  unfold computes, yields in *.
  rewrite bind_run, (series_run _ _ _ _ _ H). unfold frame_series in *.
  case_bool_decide; [apply Hk|].
  exists []. by rewrite app_nil_r.
Qed.

Lemma computes_select_if {A} (b : bool) names (c : Movie -> A) (f : A -> bool)
    (r : ref) s fr :
  s !! r = Some fr ->
  computes (if b then col ← series names c r; getitem r (apply f col)
            else mret r) s (select_if b names c f fr).
Proof.
  intros H. unfold select_if. destruct b; [|by apply computes_ret].
  apply computes_after_series; [done|]. intros col. by apply computes_getitem.
Qed.

Lemma computes_sort_values argsort (r : ref) s fr :
  s !! r = Some fr ->
  computes (sort_values_rating_desc argsort r) s (frame_sort argsort fr).
Proof.
  intros H. unfold sort_values_rating_desc, frame_sort.
  apply computes_after_series; [done|]. intros col. by apply computes_iloc.
Qed.

(** The store version of [recommend_attributes] has the outcome of the
    chain of frames. *)
Lemma recommend_attributes_computes argsort (d : ref) df genres stars years
    rating s :
  s !! d = Some df ->
  computes (recommend_attributes argsort d genres stars years rating) s
           (attributes_frame argsort genres stars years rating df).
Proof.
  intros Hd. unfold recommend_attributes.
  apply (computes_bind _ _ (attributes_frame argsort genres stars years rating)
           s (Ok df)); [by apply computes_copy|].
  intros r0 s0 f0 _ H0. unfold attributes_frame.
  apply computes_bind; [by apply computes_select_if|]. intros r1 s1 f1 _ H1.
  apply computes_bind; [by apply computes_select_if|]. intros r2 s2 f2 _ H2.
  apply computes_bind; [by apply computes_select_if|]. intros r3 s3 f3 _ H3.
  apply computes_after_series; [done|]. intros col.
  apply (computes_bind _ _ (fun f4 => srt ← frame_sort argsort f4;
                                      Ok (frame_head 10 srt)) s3 (Ok _));
    [by apply computes_getitem|].
  intros r4 s4 f4 _ H4.
  apply computes_bind; [by apply computes_sort_values|].
  intros r5 s5 f5 _ H5. by apply computes_head.
Qed.

(** ** The chain of selections *)

Lemma filter_true {A} (l : list A) : List.filter (fun _ => true) l = l.
Proof. induction l; simpl; congruence. Qed.

Lemma filter_filter {A} (p q : A -> bool) (l : list A) :
  List.filter q (List.filter p l) = List.filter (fun x => p x && q x) l.
Proof.
  induction l as [|x l IH]; simpl; [done|].
  destruct (p x); simpl; [destruct (q x)|]; by rewrite IH.
Qed.

Lemma apply_nonempty {A} (f : A -> bool) (col : list A) :
  col <> [] -> apply f col = Mask (f <$> col).
Proof. by destruct col. Qed.

(** Membership and inclusion among concrete column names, by
    evaluation. *)
Ltac by_names := apply (bool_decide_unpack _); vm_compute; exact I.

(** One optional selection moves the chain on. *)
Lemma select_if_step {A} rows o (b : bool) name names (c : Movie -> A)
    (f : A -> bool) :
  name :: names ⊆ csv_columns ->
  stage_state rows o ->
  stage_state (List.filter (fun m => if b then f (c m) else true) rows)
              (o ≫= select_if b (name :: names) c f).
Proof.
  intros Hnames [fr Hwf <- | fr Hbare -> | ->]; cbn [mbind result_bind].
  - unfold select_if. destruct b.
    + rewrite frame_series_ok by (etrans; [done|apply Hwf]).
      cbn [mbind result_bind].
      destruct (data fr) as [|m rows] eqn:Hrows.
      * by apply stage_bare.
      * rewrite apply_nonempty by (by destruct rows). rewrite <- Hrows.
        apply stage_full; [by apply wf_frame_mask|].
        simpl. rewrite <- list_fmap_compose. apply mask_select_fmap.
    + rewrite filter_true. by apply stage_full.
  - unfold select_if. destruct b.
    + rewrite frame_series_bare by done. by apply stage_raised.
    + by apply stage_bare.
  - by apply stage_raised.
Qed.

(** The selection on the rating ends the chain at a full frame or at
    [KeyError]. *)
Lemma rating_step rows o (rating : Q) :
  stage_state rows o ->
  let rows' := List.filter (fun m => float_ge (IMDB_Rating m) rating) rows in
  let o' := f3 ← o;
            col ← frame_series ["IMDB_Rating"] IMDB_Rating f3;
            Ok (frame_getitem (Mask ((fun x => float_ge x rating) <$> col)) f3) in
  (exists fr, o' = Ok fr /\ wf_frame fr /\ data fr = rows') \/
  (o' = Raise KeyError /\ rows' = []).
Proof.
  intros [fr Hwf <- | fr Hbare -> | ->]; cbn [mbind result_bind].
  - left. rewrite frame_series_ok.
    + eexists. split; [done|]. split; [by apply wf_frame_mask|].
      simpl. rewrite <- list_fmap_compose. apply mask_select_fmap.
    + intros c ->%list_elem_of_singleton. apply wf_columns; [done|].
      by_names.
  - right. by rewrite frame_series_bare.
  - by right.
Qed.

Lemma frame_sort_spec argsort fr :
  argsort_contract argsort -> wf_frame fr ->
  exists srt, frame_sort argsort fr = Ok srt /\
              data srt ≡ₚ data fr /\ StronglySorted by_rating (data srt).
Proof.
  intros Hsort Hwf. unfold frame_sort. rewrite frame_series_ok.
  2:{ intros c ->%list_elem_of_singleton. apply wf_columns; [done|].
      by_names. }
  cbn [mbind result_bind].
  destruct (Hsort (IMDB_Rating <$> data fr)) as [Hperm Hsorted].
  rewrite length_fmap in Hperm.
  destruct (frame_iloc_perm _ _ Hwf Hperm) as (srt & -> & Htake).
  exists srt. split; [done|]. split.
  - by apply (take_positions_perm _ _ _ Hperm).
  - apply (take_positions_fmap IMDB_Rating) in Htake.
    specialize (Hsorted _ Htake).
    clear -Hsorted. induction (data srt) as [|x l IH]; [constructor|].
    rewrite fmap_cons in Hsorted. apply StronglySorted_inv in Hsorted as [Hl Hx].
    constructor; [auto|]. rewrite Forall_fmap in Hx. exact Hx.
Qed.

(** What the chain of frames comes to: the first ten of the passing
    rows in the order of the sort; or, only when no row passes,
    [KeyError]. *)
Lemma attributes_frame_spec argsort genres stars years rating df :
  argsort_contract argsort -> wf_frame df ->
  exists passing,
    passing ≡ₚ List.filter (passes genres stars years rating) (data df) /\
    StronglySorted by_rating passing /\
    ((exists res, attributes_frame argsort genres stars years rating df = Ok res /\
                  data res = take 10 passing) \/
     (passing = [] /\
      attributes_frame argsort genres stars years rating df = Raise KeyError)).
Proof.
  intros Hsort Hwf. unfold attributes_frame.
  pose proof (stage_full (data df) df Hwf eq_refl) as H0.
  apply (select_if_step _ _ (bool_decide (genres ≠ [])) "Genre" [] Genre
           (fun x => any (fun g => contains g x) genres)) in H0;
    [|by_names].
  apply (select_if_step _ _ (bool_decide (stars ≠ []))
           "Star1" ["Star2"; "Star3"; "Star4"]
           (fun m => [Star1 m; Star2 m; Star3 m; Star4 m])
           (fun row => any (fun star => str_in star stars) row)) in H0;
    [|by_names].
  apply (select_if_step _ _ (bool_decide (years ≠ [])) "Released_Year" []
           Released_Year (fun y => year_in y years)) in H0;
    [|by_names].
  apply (rating_step _ _ rating) in H0. cbv zeta in H0.
  rewrite !filter_filter in H0.
  rewrite (List.filter_ext _ (passes genres stars years rating)) in H0
    by (intros m; unfold passes; by rewrite ?andb_assoc).
  change (Ok df ≫= ?g) with (g df) in H0.
  repeat match goal with
         | |- context [select_if ?b ?n ?c ?f ?x] =>
             destruct (select_if b n c f x); cbn [mbind result_bind] in *
         end;
    try (destruct (frame_series ["IMDB_Rating"] IMDB_Rating _);
         cbn [mbind result_bind] in * );
    (destruct H0 as [(f4 & Hf4 & Hwf4 & Hdata)|[Hraise Hnone]];
     [|exists []; split; [by rewrite Hnone|]; split; [constructor|]; right;
       by split]);
    try discriminate Hf4.
  cbn [frame_getitem] in *. injection Hf4 as <-.
  destruct (frame_sort_spec argsort _ Hsort Hwf4) as (srt & Hsrt & Hperm & Hsorted).
  exists (data srt). split; [by rewrite Hperm, Hdata|]. split; [done|]. left.
  exists (frame_head 10 srt). by rewrite Hsrt.
Qed.

(** ** What [recommend_attributes] returns *)

Lemma recommend_attributes_spec argsort (d : ref) catalog genres stars years
    rating s :
  argsort_contract argsort -> wf_frame catalog -> s !! d = Some catalog ->
  exists passing,
    passing ≡ₚ List.filter (passes genres stars years rating) (data catalog) /\
    StronglySorted by_rating passing /\
    returns_top_ten (recommend_attributes argsort d genres stars years rating s)
                    passing.
Proof.
  intros Hsort Hwf Hd.
  destruct (attributes_frame_spec argsort genres stars years rating catalog
              Hsort Hwf) as (passing & Hperm & Hsorted & Hout).
  exists passing. do 2 (split; [done|]).
  pose proof (recommend_attributes_computes argsort d catalog genres stars
                years rating s Hd) as Hrun.
  destruct Hout as [(res & Hres & Hdata)|[Hnone Hraise]].
  - left. rewrite Hres in Hrun. destruct Hrun as (r & ext & Hrun & Hr). eauto 10.
  - right. rewrite Hraise in Hrun. destruct Hrun as (ext & Hrun). eauto.
Qed.

(** The sample catalogs are well formed. *)
Lemma wf_sample_catalog : wf_frame sample_catalog.
Proof. split; [done|]. split; [reflexivity|]. intros col H. discriminate H. Defined.

Lemma wf_mixed_catalog : wf_frame mixed_catalog.
Proof. split; [done|]. split; [reflexivity|]. intros col H. discriminate H. Defined.

Lemma wf_twin_catalog : wf_frame twin_catalog.
Proof. split; [done|]. split; [reflexivity|]. intros col H. discriminate H. Defined.


(** ** The predicates, read as propositions *)

Lemma append_cons (c : Ascii.ascii) (a b : string) :
  String c a +:+ b = String c (a +:+ b).
Proof. reflexivity. Qed.

Lemma prefix_spec (g x : string) :
  String.prefix g x = true <-> exists b, x = g +:+ b.
Proof.
  revert x. induction g as [|c g IH]; intros x.
  - split; [|by destruct x]. intros _. by exists x.
  - setoid_rewrite append_cons. destruct x as [|c' x]; simpl.
    + split; [done|]. by intros [b [=]].
    + destruct (Ascii.ascii_dec c c') as [->|Hne].
      * rewrite IH. split; intros [b Hb]; exists b; [by rewrite Hb|].
        by injection Hb.
      * split; [done|]. intros [b [= ? ?]]. done.
Qed.

Lemma contains_cons (g : string) (c : Ascii.ascii) (x : string) :
  contains g (String c x) = String.prefix g (String c x) || contains g x.
Proof. reflexivity. Qed.

Lemma contains_nil (g : string) : contains g "" = String.prefix g "".
Proof. apply orb_false_r. Qed.

Lemma contains_spec (g x : string) : contains g x = true <-> occurs_in g x.
Proof.
  unfold occurs_in. induction x as [|c x IH].
  - rewrite contains_nil, prefix_spec. split.
    + intros [b Hb]. by exists "", b.
    + intros ([|? a] & b & Hab); [by exists b|done].
  - rewrite contains_cons, orb_true_iff, prefix_spec, IH. split.
    + intros [[b Hb]|(a & b & Hab)].
      * by exists "", b.
      * exists (String c a), b. by rewrite append_cons, Hab.
    + intros ([|c' a] & b & Hab).
      * left. by exists b.
      * right. rewrite append_cons in Hab. injection Hab as -> Hx. by exists a, b.
Qed.

Lemma any_spec {A} (p : A -> bool) (l : list A) :
  any p l = true <-> exists x, x ∈ l /\ p x = true.
Proof.
  unfold any. rewrite existsb_exists.
  split; intros (x & Hx & Hp); exists x; split; auto; by apply list_elem_of_In.
Qed.

Lemma str_in_spec (s : string) (l : list string) : str_in s l = true <-> s ∈ l.
Proof.
  unfold str_in. rewrite (any_spec (String.eqb s)). split.
  - intros (x & Hx & Heq). apply String.eqb_eq in Heq. by subst.
  - intros Hs. exists s. split; [done|]. apply String.eqb_refl.
Qed.

Lemma year_in_spec (y : option Q) (years : list Z) :
  year_in y years = true <->
  exists q z, y = Some q /\ z ∈ years /\ (q == inject_Z z)%Q.
Proof.
  destruct y as [q|]; simpl.
  - rewrite (any_spec (fun z => Qeq_bool q (inject_Z z))). split.
    + intros (z & Hz & Heq). exists q, z. by apply Qeq_bool_iff in Heq.
    + intros (q' & z & [= <-] & Hz & Heq). exists z. by apply Qeq_bool_iff in Heq.
  - split; [done|]. by intros (q & z & [=] & _).
Qed.

Lemma float_ge_spec (x : option Q) (rating : Q) :
  float_ge x rating = true <-> exists q, x = Some q /\ (rating <= q)%Q.
Proof.
  destruct x as [q|]; simpl.
  - rewrite Qle_bool_iff. split; [eauto|]. by intros (q' & [= <-] & H).
  - split; [done|]. by intros (q & [=] & _).
Qed.

Lemma passes_spec genres stars years rating (m : Movie) :
  passes genres stars years rating m = true <->
  (genres = [] \/ exists g, g ∈ genres /\ occurs_in g (Genre m)) /\
  (stars = [] \/
   exists c, c ∈ [Star1 m; Star2 m; Star3 m; Star4 m] /\ c ∈ stars) /\
  (years = [] \/
   exists q z, Released_Year m = Some q /\ z ∈ years /\ (q == inject_Z z)%Q) /\
  (exists q, IMDB_Rating m = Some q /\ (rating <= q)%Q).
Proof.
  unfold passes. rewrite !andb_true_iff, float_ge_spec.
  assert (forall {A} (l : list A) `{!EqDecision A} (b : bool) (P : Prop),
            (b = true <-> P) ->
            ((if bool_decide (l ≠ []) then b else true) = true <-> l = [] \/ P))
    as Hopt.
  { intros A l ? b P HbP. case_bool_decide as Hl.
    - rewrite HbP. split; [auto|]. by intros [?|?].
    - split; [|done]. intros _. left. by destruct l. }
  rewrite (Hopt _ genres _ _ _ (any_spec _ _)).
  rewrite (Hopt _ stars _ _ _ (any_spec _ _)).
  rewrite (Hopt _ years _ _ _ (year_in_spec _ _)).
  setoid_rewrite contains_spec. setoid_rewrite str_in_spec. tauto.
Qed.

(** * The claims *)

(** ** Loading *)

Lemma load_rows_imap parse_number (f : nat -> nat) (csv : list Raw.Row) :
  (omap (fun '(i, r) => pair i <$> load_row parse_number r)
        (imap (fun i r => (f i, r)) csv)).*2
  = omap (load_row parse_number) csv.
Proof.
  revert f. induction csv as [|r csv IH]; intros f; [done|].
  rewrite imap_cons. csimpl. destruct (load_row parse_number r) as [m|]; csimpl.
  - f_equal. apply (IH (f ∘ S)).
  - apply (IH (f ∘ S)).
Qed.

Lemma load_data_rows parse_number (csv : list Raw.Row) :
  data (load_data parse_number csv) = omap (load_row parse_number) csv.
Proof. apply (load_rows_imap parse_number id). Qed.

Lemma load_row_title parse_number (r : Raw.Row) :
  Series_Title <$> load_row parse_number r = Raw.Series_Title r.
Proof. unfold load_row. by destruct (Raw.Series_Title r). Qed.

(** C9. Loading drops exactly the rows without a title and raises nothing
    for them: the catalog has as many rows as the csv minus the rows
    whose title is missing, its titles are the titles present in the csv,
    in file order, each kept row is the cleaned csv row, and the labels
    are the csv positions of the titled rows. *)
Theorem load_data_drops_untitled_rows parse_number (csv : list Raw.Row) :
  let df := load_data parse_number csv in
  length (data df) =
    length csv
    - length (List.filter (fun r => bool_decide (Raw.Series_Title r = None)) csv) /\
  Series_Title <$> data df = omap Raw.Series_Title csv /\
  data df = omap (load_row parse_number) csv /\
  length (index df) = length (data df) /\
  forall i, i ∈ index df <->
            exists r, csv !! i = Some r /\ Raw.Series_Title r <> None.
Proof.
  cbv zeta. rewrite !load_data_rows. repeat split.
  - induction csv as [|r csv IH]; [done|]. csimpl.
    pose proof (filter_length_le
      (fun r => bool_decide (Raw.Series_Title r = None)) csv) as Hle.
    pose proof (load_row_title parse_number r) as Ht.
    destruct (load_row parse_number r), (Raw.Series_Title r); try done; simpl.
    rewrite IH. lia.
  - induction csv as [|r csv IH]; [done|]. csimpl.
    pose proof (load_row_title parse_number r) as Ht.
    destruct (load_row parse_number r), (Raw.Series_Title r); try done; csimpl.
    injection Ht as ->. by f_equal.
  - rewrite <- load_data_rows. unfold load_data. simpl. by rewrite !length_fmap.
  - unfold load_data. simpl. rewrite list_elem_of_fmap.
    intros ([j m] & -> & H). apply list_elem_of_omap in H as ([k r] & Hk & Hr).
    apply elem_of_enumerate in Hk. exists r. split.
    + destruct (load_row parse_number r); [|done]. by injection Hr as -> _.
    + pose proof (load_row_title parse_number r) as Ht.
      destruct (load_row parse_number r); [|done]. by rewrite <- Ht.
  - unfold load_data. simpl. intros (r & Hi & Hr).
    pose proof (load_row_title parse_number r) as Ht.
    destruct (load_row parse_number r) as [m|] eqn:Hm; [|by symmetry in Ht].
    apply list_elem_of_fmap. exists (i, m). split; [done|].
    apply list_elem_of_omap. exists (i, r). split.
    + by apply elem_of_enumerate.
    + by rewrite Hm.
Qed.

(** ** Content-based recommendation *)

(** C4. A title the catalog does not hold gives a new empty frame as an
    ordinary return value, not an exception; the store is otherwise as it
    was. *)
Theorem recommend_content_unknown_title title (d : ref) catalog sim_matrix s :
  s !! d = Some catalog ->
  "Series_Title" ∈ columns catalog ->
  title ∉ Series_Title <$> data catalog ->
  recommend_content title d sim_matrix s = (Ok (length s), s ++ [empty_frame]) /\
  (s ++ [empty_frame]) !! length s = Some empty_frame /\
  data empty_frame = [].
Proof.
  intros Hd Hcol Htitle. repeat split.
  - unfold recommend_content.
    rewrite (bind_run_ok _ _ _ _ _
               (series_run_ok ["Series_Title"] Series_Title _ _ _ Hd
                  ltac:(by intros c ->%list_elem_of_singleton))).
    by rewrite bool_decide_eq_false_2.
  - by rewrite lookup_app_r, Nat.sub_diag.
Qed.

Lemma recommend_content_unknown_title_witness :
  recommend_content "Tenet" 0 diagonal_matrix [sample_catalog]
  = (Ok 1, [sample_catalog; empty_frame]) /\
  [sample_catalog; empty_frame] !! 1 = Some empty_frame /\
  data empty_frame = [].
Proof.
  apply (recommend_content_unknown_title "Tenet" 0 sample_catalog
           diagonal_matrix [sample_catalog]).
  - reflexivity.
  - by_names.
  - by_names.
Defined.

(** When no row was dropped (labels are positions), the title is looked
    up at its first row [p], and the score of [p] with itself is the
    strict maximum of its matrix row, the call returns the ten best other
    rows and not [p]. *)
Lemma recommend_content_excludes_query title (d : ref) catalog sim_matrix s
    (p : nat) (row : list Q) (x : Q) :
  s !! d = Some catalog ->
  wf_frame catalog ->
  index catalog = seq 0 (length (data catalog)) ->
  (Series_Title <$> data catalog) !! p = Some title ->
  (forall j, j < p -> (Series_Title <$> data catalog) !! j <> Some title) ->
  sim_matrix !! p = Some row ->
  length row = length (data catalog) ->
  row !! p = Some x ->
  (forall j y, j <> p -> row !! j = Some y -> (y < x)%Q) ->
  exists r s' res,
    recommend_content title d sim_matrix s = (Ok r, s') /\
    s' !! r = Some res /\
    (p ∉ index res) /\
    length (data res) = 10 `min` (length (data catalog) - 1).
Proof.
  intros Hd Hwf Hix Htitle Hfirst Hrow Hlen Hx Hmax.
  set (titles := Series_Title <$> data catalog) in *.
  set (mask := (fun t => String.eqb t title) <$> titles).
  assert (index (frame_mask mask catalog) !! 0 = Some p) as Hidx.
  { simpl. apply (mask_select_first mask _ p).
    - unfold mask. rewrite list_lookup_fmap, Htitle. simpl.
      by rewrite String.eqb_refl.
    - intros j Hj. unfold mask. rewrite list_lookup_fmap.
      destruct (titles !! j) as [t|] eqn:Ht; simpl.
      + f_equal. apply String.eqb_neq. intros ->. by apply (Hfirst j Hj).
      + apply lookup_ge_None in Ht. apply lookup_lt_Some in Htitle. lia.
    - rewrite Hix. apply lookup_seq. split; [done|].
      apply lookup_lt_Some in Htitle. unfold titles in Htitle.
      by rewrite length_fmap in Htitle. }
  destruct (sorted_reverse_head row p x Hx Hmax)
    as (rest & Hsorted & Hnotin & Hrest & Hrange).
  set (movie_indices := (slice 1 11 ((p, x) :: rest)).*1).
  assert (movie_indices = take 10 rest.*1) as Hmi
    by (unfold movie_indices, slice; simpl; by rewrite fmap_take).
  assert (Forall (fun i => i < length (data catalog)) movie_indices) as Hpos.
  { rewrite Hmi, <- Hlen. by apply Forall_take. }
  destruct (frame_iloc_in_range _ _ Hwf Hpos)
    as (res & Hiloc & _ & Hres_ix & Hres_data).
  exists (S (length s)), ((s ++ [frame_getitem (Mask mask) catalog]) ++ [res]), res.
  split; [|split; [|split]].
  - unfold recommend_content.
    rewrite (bind_run_ok _ _ _ _ _
               (series_run_ok ["Series_Title"] Series_Title _ _ _ Hd
                  ltac:(intros c ->%list_elem_of_singleton;
                        apply wf_columns; [done|by_names]))).
    rewrite bool_decide_eq_true_2
      by (eapply list_elem_of_lookup_2; exact Htitle).
    change (negb true) with false. cbv iota. fold titles. fold mask.
    rewrite (bind_run_ok _ _ _ _ _ (getitem_run _ (Mask mask) _ _ Hd)).
    assert ((s ++ [frame_getitem (Mask mask) catalog]) !! length s
            = Some (frame_mask mask catalog)) as Hsel
      by (by rewrite lookup_app_r, Nat.sub_diag).
    rewrite (bind_run_ok _ _ _ _ _ (index_at_run _ _ _ _ _ Hsel Hidx)).
    rewrite Hrow, Hsorted. fold movie_indices.
    assert ((s ++ [frame_getitem (Mask mask) catalog]) !! d = Some catalog) as Hd'
      by (by apply lookup_app_l_Some).
    rewrite (iloc_run _ _ _ _ _ Hd' Hiloc). by rewrite length_app, Nat.add_1_r.
  - apply list_lookup_middle. rewrite length_app. simpl. lia.
  - rewrite Hix, (take_positions_seq _ _ Hpos) in Hres_ix.
    injection Hres_ix as <-. rewrite Hmi. intros Hin.
    apply Hnotin. by apply subseteq_take in Hin.
  - apply length_mapM in Hres_data. rewrite <- Hres_data, Hmi.
    rewrite length_take, length_fmap. lia.
Qed.

(** C1. The query is not always excluded.  The slice [1:11] drops the
    first entry of the sorted row, which is the query only when its own
    score comes first.  (a) When an earlier film has the same document,
    both scores are equal, the stable sort keeps the earlier film first,
    and the query itself is returned.  (b) When [load_data] dropped a
    row, labels exceed positions: the label of "A" selects the matrix
    row of "B", the entry dropped is "B", and "A" itself is returned;
    the label of "B" is outside the matrix. *)
Theorem recommend_content_returns_the_query :
  returned_rows
    (recommend_content "Blade Runner: The Final Cut" 0 twin_matrix [twin_catalog])
  = Ok [(1, "Blade Runner: The Final Cut")] /\
  index (load_data no_parse sample_csv) = [1; 2] /\
  returned_rows
    (recommend_content "A" 0 diagonal_matrix [load_data no_parse sample_csv])
  = Ok [(1, "A")] /\
  (recommend_content "B" 0 diagonal_matrix [load_data no_parse sample_csv]).1
  = Raise IndexError.
Proof. repeat split; vm_compute; reflexivity. Qed.

(** ** The feature document *)

Lemma append_assoc (a b c : string) : (a +:+ b) +:+ c = a +:+ (b +:+ c).
Proof.
  induction a as [|x a IH]; [done|]. rewrite !append_cons. by rewrite IH.
Qed.

(** With a director, the document is the seven fields joined by spaces,
    a missing overview counting as empty. *)
Lemma metadata_of_director (m : Movie) (d : string) :
  Director m = Some d ->
  metadata_of m
  = Some (String.concat " " [fillna "" (Overview m); Genre m; d;
                             Star1 m; Star2 m; Star3 m; Star4 m]).
Proof.
  intros Hd. unfold metadata_of. rewrite Hd. cbn.
  by rewrite !append_assoc.
Qed.

Lemma metadata_of_None (m : Movie) : metadata_of m = None <-> Director m = None.
Proof.
  split.
  - destruct (Director m) as [d|] eqn:Hd; [|done].
    by rewrite (metadata_of_director m d Hd).
  - intros Hd. unfold metadata_of. by rewrite Hd.
Qed.

(** C6. The director is the one field that is not defaulted.  A csv row
    with an empty director cell is loaded with the director missing; the
    sum of line 22 is then NaN for the row, not a document with an empty
    director, and the vectorizer rejects it. *)
Theorem missing_director_is_not_defaulted :
  let catalog := load_data no_parse [raw_row (Some "A") None 8] in
  Director <$> data catalog = [None] /\
  metadata_of <$> data catalog = [None] /\
  forall sparse fit_transform cosine_similarity,
    (build_similarity_matrix sparse fit_transform cosine_similarity 0 [catalog]).1
    = Raise ValueError.
Proof. repeat split. Qed.

(** ** What the calls do to the catalog *)

Section SimilarityRun.
Context (sparse : Type)
        (fit_transform : TfidfVectorizer -> list string -> result sparse)
        (cosine_similarity : sparse -> matrix).

Lemma build_similarity_matrix_run (d : ref) catalog s :
  s !! d = Some catalog -> wf_frame catalog ->
  build_similarity_matrix sparse fit_transform cosine_similarity d s
  = (match mapM id (metadata_of <$> data catalog) with
     | Some texts =>
         tfidf_matrix ← fit_transform {| stop_words := Some "english" |} texts;
         Ok (cosine_similarity tfidf_matrix)
     | None => Raise ValueError
     end,
     <[d := with_metadata catalog]> s).
Proof.
  intros Hd Hwf. unfold build_similarity_matrix.
  rewrite (bind_run_ok _ _ _ _ _
             (series_run_ok
                ["Overview"; "Genre"; "Director"; "Star1"; "Star2"; "Star3";
                 "Star4"] metadata_of _ _ _ Hd
                ltac:(transitivity csv_columns; [by_names|apply Hwf]))).
  assert (setitem_metadata d (metadata_of <$> data catalog) s
          = (Ok tt, <[d := with_metadata catalog]> s)) as Hset.
  { unfold setitem_metadata.
    rewrite (bind_run_ok _ _ _ _ _ (get_run _ _ _ Hd)).
    unfold put. by rewrite Hd. }
  rewrite (bind_run_ok _ _ _ _ _ Hset).
  assert (<[d := with_metadata catalog]> s !! d = Some (with_metadata catalog))
    as Hd' by (apply list_lookup_insert_eq; by eapply lookup_lt_Some).
  unfold getitem_metadata.
  rewrite (bind_run_ok _ _ _ _ _
             (bind_run_ok _ _ _ _ _ (get_run _ _ _ Hd'))).
  simpl. destruct (mapM id (metadata_of <$> data catalog)) as [texts|]; [|done].
  unfold lift. cbn.
  by destruct (fit_transform {| stop_words := Some "english" |} texts).
Qed.
End SimilarityRun.

(** C8, as stated, fails: building the similarity matrix assigns the
    [metadata] column of the catalog it is given, so the catalog has one
    more column afterwards. *)
Lemma build_similarity_matrix_adds_a_column :
  let s' := (build_similarity_matrix (list string) sample_fit_transform
               (fun _ => diagonal_matrix) 0 [sample_catalog]).2 in
  s' !! 0 <> Some sample_catalog /\
  columns <$> s' !! 0 = Some (csv_columns ++ ["metadata"]) /\
  columns sample_catalog = csv_columns.
Proof. repeat split. vm_compute. intros [=]. Qed.

(** C8, amended.  Building the similarity matrix changes the catalog in
    one way only: the [metadata] column is assigned.  A catalog without
    that column has it as a new last column afterwards, behind the
    columns it had, in their order; labels, rows and their order, and
    every other object are as before, also when the vectorizer raises.
    The two recommenders leave the catalog and every other object as
    they were. *)
Theorem catalog_changes_only_by_metadata sparse fit_transform cosine_similarity
    argsort (d : ref) catalog s :
  s !! d = Some catalog -> wf_frame catalog ->
  (let s' := (build_similarity_matrix sparse fit_transform cosine_similarity d s).2 in
   exists catalog',
     s' !! d = Some catalog' /\
     index catalog' = index catalog /\
     data catalog' = data catalog /\
     metadata catalog' = Some (metadata_of <$> data catalog) /\
     ("metadata" ∉ columns catalog ->
      columns catalog' = columns catalog ++ ["metadata"]) /\
     ("metadata" ∈ columns catalog -> columns catalog' = columns catalog) /\
     (forall o, o <> d -> s' !! o = s !! o)) /\
  (forall title sim_matrix,
     let s' := (recommend_content title d sim_matrix s).2 in
     s' !! d = Some catalog /\ s `prefix_of` s') /\
  (forall genres stars years rating,
     let s' := (recommend_attributes argsort d genres stars years rating s).2 in
     s' !! d = Some catalog /\ s `prefix_of` s').
Proof.
  intros Hd Hwf. repeat split.
  - rewrite (build_similarity_matrix_run _ _ _ _ _ _ Hd Hwf). simpl.
    exists (with_metadata catalog). repeat split.
    + apply list_lookup_insert_eq. by eapply lookup_lt_Some.
    + intros Hnew. simpl. by rewrite bool_decide_eq_false_2.
    + intros Hold. simpl. by rewrite bool_decide_eq_true_2.
    + intros o Ho. by apply list_lookup_insert_ne.
  - eapply prefix_lookup_Some; [done|apply allocates_only_recommend_content].
  - apply allocates_only_recommend_content.
  - eapply prefix_lookup_Some; [done|apply allocates_only_recommend_attributes].
  - apply allocates_only_recommend_attributes.
Qed.

Lemma catalog_changes_only_by_metadata_witness :
  (let s' := (build_similarity_matrix (list string) sample_fit_transform
                (fun _ => diagonal_matrix) 0 [sample_catalog]).2 in
   exists catalog',
     s' !! 0 = Some catalog' /\
     index catalog' = index sample_catalog /\
     data catalog' = data sample_catalog /\
     metadata catalog' = Some (metadata_of <$> data sample_catalog) /\
     ("metadata" ∉ columns sample_catalog ->
      columns catalog' = columns sample_catalog ++ ["metadata"]) /\
     ("metadata" ∈ columns sample_catalog ->
      columns catalog' = columns sample_catalog) /\
     (forall o, o <> 0 -> s' !! o = [sample_catalog] !! o)) /\
  (forall title sim_matrix,
     let s' := (recommend_content title 0 sim_matrix [sample_catalog]).2 in
     s' !! 0 = Some sample_catalog /\ [sample_catalog] `prefix_of` s') /\
  (forall genres stars years rating,
     let s' := (recommend_attributes stable_argsort 0 genres stars years rating
                  [sample_catalog]).2 in
     s' !! 0 = Some sample_catalog /\ [sample_catalog] `prefix_of` s').
Proof.
  apply (catalog_changes_only_by_metadata (list string) sample_fit_transform
           (fun _ => diagonal_matrix) stable_argsort 0 sample_catalog
           [sample_catalog]).
  - reflexivity.
  - apply wf_sample_catalog.
Defined.

(** C10. [recommend_attributes] works on a copy: whatever the arguments,
    and whatever order the sort chooses, the catalog object holds the
    same frame after the call as before, and so does every other object
    that existed. *)
Theorem recommend_attributes_keeps_catalog argsort (d : ref) catalog
    genres stars years rating s :
  s !! d = Some catalog ->
  let s' := (recommend_attributes argsort d genres stars years rating s).2 in
  s' !! d = Some catalog /\
  forall o df, s !! o = Some df -> s' !! o = Some df.
Proof.
  intros Hd. split; [|intros o df Ho];
    (eapply prefix_lookup_Some;
     [done|apply allocates_only_recommend_attributes]).
Qed.

Lemma recommend_attributes_keeps_catalog_witness :
  (recommend_attributes stable_argsort 0 ["Sci-Fi"] [] [] (87 # 10)
     [sample_catalog]).2 !! 0 = Some sample_catalog.
Proof.
  apply (proj1 (recommend_attributes_keeps_catalog stable_argsort 0
                  sample_catalog ["Sci-Fi"] [] [] (87 # 10) [sample_catalog]
                  eq_refl)).
Defined.

(** ** Attribute-based recommendation *)


Lemma elem_of_passing genres stars years rating catalog passing (m : Movie) :
  passing ≡ₚ List.filter (passes genres stars years rating) (data catalog) ->
  m ∈ passing <->
  m ∈ data catalog /\ passes genres stars years rating m = true.
Proof.
  intros ->. by rewrite !list_elem_of_In, filter_In.
Qed.


(** The second outcome of [returns_top_ten] does occur: the first two
    selections leave no row, the third is then made on no rows and
    leaves a frame without columns, and line 62 raises. *)
Example selection_on_no_rows_raises :
  (recommend_attributes stable_argsort 0 ["Sci-Fi"] ["Tom Hanks"] [2010%Z] 8
     [sample_catalog]).1 = Raise KeyError.
Proof. vm_compute. reflexivity. Qed.

(** C2. A film whose rating is unknown is never returned, whatever the
    other arguments and also for threshold 0: every film that passes,
    hence every returned film, has a rating that is defined and at least
    [rating]; and when no other selection is active the films that pass
    are exactly the catalog rows with a defined rating of at least
    [rating].  The catalog is a well-formed frame and the sort meets
    what pandas documents. *)
Theorem unknown_rating_is_always_excluded argsort (d : ref) catalog
    genres stars years rating s :
  argsort_contract argsort -> wf_frame catalog -> s !! d = Some catalog ->
  exists passing,
    returns_top_ten (recommend_attributes argsort d genres stars years rating s)
                    passing /\
    (forall m, m ∈ passing ->
               exists q, IMDB_Rating m = Some q /\ (rating <= q)%Q) /\
    (forall m, IMDB_Rating m = None -> m ∉ take 10 passing) /\
    (genres = [] -> stars = [] -> years = [] ->
     forall m, m ∈ passing <->
               m ∈ data catalog /\
               exists q, IMDB_Rating m = Some q /\ (rating <= q)%Q).
Proof.
  intros Hsort Hwf Hd.
  destruct (recommend_attributes_spec argsort d catalog genres stars years
              rating s Hsort Hwf Hd) as (passing & Hperm & _ & Hout).
  exists passing. split; [done|].
  assert (forall m, m ∈ passing ->
                    exists q, IMDB_Rating m = Some q /\ (rating <= q)%Q) as Hrated.
  { intros m Hm.
    apply (elem_of_passing _ _ _ _ _ _ _ Hperm) in Hm as [_ Hm].
    by apply passes_spec in Hm as (_ & _ & _ & Hm). }
  split; [done|]. split.
  - intros m Hnone Hm. apply subseteq_take in Hm.
    destruct (Hrated m Hm) as (q & Hq & _). congruence.
  - intros -> -> -> m.
    rewrite (elem_of_passing _ _ _ _ _ _ _ Hperm), passes_spec. split.
    + by intros (Hm & _ & _ & _ & Hq).
    + intros [Hm Hq]. auto 10.
Qed.

Lemma unknown_rating_is_always_excluded_witness :
  exists passing,
    returns_top_ten
      (recommend_attributes stable_argsort 0 ["Drama"] [] [] 0 [mixed_catalog])
      passing /\
    (forall m, m ∈ passing -> exists q, IMDB_Rating m = Some q /\ (0 <= q)%Q) /\
    (forall m, IMDB_Rating m = None -> m ∉ take 10 passing) /\
    (["Drama"] = [] -> @nil string = [] -> @nil Z = [] ->
     forall m, m ∈ passing <->
               m ∈ data mixed_catalog /\
               exists q, IMDB_Rating m = Some q /\ (0 <= q)%Q).
Proof.
  apply (unknown_rating_is_always_excluded stable_argsort 0 mixed_catalog
           ["Drama"] [] [] 0 [mixed_catalog]).
  - apply stable_argsort_contract.
  - apply wf_mixed_catalog.
  - reflexivity.
Defined.

(** C3. The films that pass are the catalog rows for which every active
    selection holds: some requested genre occurs in the genre text; some
    of the four cast fields is equal to a requested star; the year is
    known and equal to a requested year; and (always) the rating is known
    and at least [rating].  A selection whose argument is empty is not
    applied.  The call returns the first ten of the passing films in the
    order of the sort. *)
Theorem selections_are_conjoined argsort (d : ref) catalog
    genres stars years rating s :
  argsort_contract argsort -> wf_frame catalog -> s !! d = Some catalog ->
  exists passing,
    returns_top_ten (recommend_attributes argsort d genres stars years rating s)
                    passing /\
    forall m, m ∈ passing <->
      m ∈ data catalog /\
      (genres = [] \/ exists g, g ∈ genres /\ occurs_in g (Genre m)) /\
      (stars = [] \/
       exists c, c ∈ [Star1 m; Star2 m; Star3 m; Star4 m] /\ c ∈ stars) /\
      (years = [] \/
       exists q z, Released_Year m = Some q /\ z ∈ years /\ (q == inject_Z z)%Q) /\
      (exists q, IMDB_Rating m = Some q /\ (rating <= q)%Q).
Proof.
  intros Hsort Hwf Hd.
  destruct (recommend_attributes_spec argsort d catalog genres stars years
              rating s Hsort Hwf Hd) as (passing & Hperm & _ & Hout).
  exists passing. split; [done|]. intros m.
  by rewrite (elem_of_passing _ _ _ _ _ _ _ Hperm), passes_spec.
Qed.

Lemma selections_are_conjoined_witness :
  exists passing,
    returns_top_ten
      (recommend_attributes stable_argsort 0 ["Sci-Fi"] ["Leonardo DiCaprio"]
         [2010%Z] (87 # 10) [mixed_catalog]) passing /\
    forall m, m ∈ passing <->
      m ∈ data mixed_catalog /\
      (["Sci-Fi"] = [] \/ exists g, g ∈ ["Sci-Fi"] /\ occurs_in g (Genre m)) /\
      (["Leonardo DiCaprio"] = [] \/
       exists c, c ∈ [Star1 m; Star2 m; Star3 m; Star4 m] /\
                 c ∈ ["Leonardo DiCaprio"]) /\
      ([2010%Z] = [] \/
       exists q z, Released_Year m = Some q /\ z ∈ [2010%Z] /\
                   (q == inject_Z z)%Q) /\
      (exists q, IMDB_Rating m = Some q /\ (87 # 10 <= q)%Q).
Proof.
  apply (selections_are_conjoined stable_argsort 0 mixed_catalog
           ["Sci-Fi"] ["Leonardo DiCaprio"] [2010%Z] (87 # 10) [mixed_catalog]).
  - apply stable_argsort_contract.
  - apply wf_mixed_catalog.
  - reflexivity.
Defined.




(** * Further properties of the code *)

(** ** Labels after loading *)

Lemma load_data_snoc parse_number (csv : list Raw.Row) (r : Raw.Row) :
  index (load_data parse_number (csv ++ [r]))
  = index (load_data parse_number csv)
    ++ match load_row parse_number r with Some _ => [length csv] | None => [] end /\
  data (load_data parse_number (csv ++ [r]))
  = data (load_data parse_number csv)
    ++ match load_row parse_number r with Some m => [m] | None => [] end.
Proof.
  unfold load_data, enumerate. simpl.
  rewrite imap_app, omap_app, !fmap_app. simpl. rewrite Nat.add_0_r.
  by destruct (load_row parse_number r).
Qed.

Lemma load_data_index_length parse_number (csv : list Raw.Row) :
  length (index (load_data parse_number csv))
  = length (List.filter (fun r => bool_decide (is_Some (Raw.Series_Title r))) csv).
Proof.
  induction csv as [|r csv IH] using rev_ind; [done|].
  destruct (load_data_snoc parse_number csv r) as [-> _].
  rewrite List.filter_app, !length_app, IH. f_equal. simpl.
  pose proof (load_row_title parse_number r) as Ht.
  destruct (load_row parse_number r), (Raw.Series_Title r); try done.
Qed.

(** X1. [dropna] keeps the labels [read_csv] gave: after [load_data] the
    labels are strictly increasing (so distinct); the row at catalog
    position [k] with label [label] is the cleaned csv row number
    [label], and [k] is the number of titled csv rows before it, so a
    label exceeds its position by the number of rows dropped before it;
    and when every csv row has a title the labels are the positions. *)
Theorem load_data_labels parse_number (csv : list Raw.Row) :
  let df := load_data parse_number csv in
  StronglySorted lt (index df) /\
  (forall k label, index df !! k = Some label ->
     label < length csv /\
     k = length (List.filter
                   (fun r => bool_decide (is_Some (Raw.Series_Title r)))
                   (take label csv)) /\
     exists r m, csv !! label = Some r /\ load_row parse_number r = Some m /\
                 data df !! k = Some m) /\
  ((forall r, r ∈ csv -> Raw.Series_Title r <> None) ->
   index df = seq 0 (length csv)).
Proof.
  cbv zeta. induction csv as [|r csv IH] using rev_ind.
  - split; [constructor|]. split; [|done]. intros k label H. by destruct k.
  - destruct IH as (Hsorted & Hrows & Hall).
    destruct (load_data_snoc parse_number csv r) as [-> ->].
    pose proof (load_data_index_length parse_number csv) as Hlen.
    assert (length (data (load_data parse_number csv))
            = length (index (load_data parse_number csv))) as Hdata
      by (unfold load_data; simpl; by rewrite !length_fmap).
    set (df0 := load_data parse_number csv) in *. clearbody df0.
    rewrite length_app. simpl. split; [|split].
    + apply StronglySorted_app_2; [|done|].
      * intros a b Ha Hb. apply list_elem_of_lookup in Ha as [k Hk].
        destruct (Hrows k a Hk) as (Ha & _).
        destruct (load_row parse_number r); [|by apply elem_of_nil in Hb].
        apply list_elem_of_singleton in Hb as ->. done.
      * destruct (load_row parse_number r); repeat constructor.
    + intros k label Hk. apply lookup_app_Some in Hk as [Hk|[Hge Hk]].
      * destruct (Hrows k label Hk) as (Hlt & Hcount & r' & m & Hr' & Hm & Hd).
        split; [lia|]. split.
        -- by rewrite take_app_le by lia.
        -- exists r', m. split; [by apply lookup_app_l_Some|].
           split; [done|]. by apply lookup_app_l_Some.
      * destruct (load_row parse_number r) as [m|] eqn:Hm;
          [|by rewrite lookup_nil in Hk].
        apply list_lookup_singleton_Some in Hk as [Hk <-].
        split; [lia|]. split.
        -- rewrite take_app_le, firstn_all by lia. rewrite <- Hlen. lia.
        -- exists r, m. split; [by rewrite lookup_app_r, Nat.sub_diag|].
           split; [done|]. rewrite lookup_app_r by lia.
           replace (k - _) with 0 by lia. done.
    + intros Htitled. rewrite Hall.
      * rewrite Nat.add_1_r, seq_S. simpl. f_equal.
        pose proof (load_row_title parse_number r) as Ht.
        destruct (load_row parse_number r); [done|].
        exfalso. apply (Htitled r); [|done]. apply elem_of_app. right. left.
      * intros r' Hr'. apply Htitled. apply elem_of_app. by left.
Qed.

(** ** Python's [sorted] is stable *)

Lemma insert_by_sorted_among {A} (after : A -> A -> bool) (R : relation A)
    `{!Transitive R} (x : A) (l : list A) :
  (forall y, y ∈ l -> after y x = true -> R y x) ->
  (forall y, y ∈ l -> after y x = false -> R x y) ->
  StronglySorted R l -> StronglySorted R (insert_by after x l).
Proof.
  intros Htrue Hfalse Hl. induction Hl as [|y l Hl IH Hy]; simpl.
  - repeat constructor.
  - destruct (after y x) eqn:Hyx.
    + constructor.
      * apply IH; intros z Hz; [apply Htrue|apply Hfalse]; by right.
      * rewrite insert_by_perm. constructor; [|done]. apply Htrue; [left|done].
    + assert (R x y) as Hxy by (apply Hfalse; [left|done]).
      constructor; [by constructor|]. constructor; [done|].
      eapply Forall_impl; [exact Hy|]. intros z Hz. by etrans.
Qed.

#[export] Instance stable_desc_trans : Transitive stable_desc.
Proof.
  intros [i x] [j y] [k z]; unfold stable_desc; simpl.
  intros [Hxy|[Hxy Hij]] [Hyz|[Hyz Hjk]].
  - left. by eapply Qlt_trans.
  - left. by rewrite Hyz.
  - left. by rewrite <- Hxy.
  - right. split; [by rewrite Hyz|lia].
Qed.

Lemma sorted_reverse_stable (ps : list (nat * Q)) :
  StronglySorted (fun a b => a.1 < b.1) ps ->
  StronglySorted stable_desc (sorted_reverse snd ps).
Proof.
  induction 1 as [|x ps Hps IH Hx]; simpl; [constructor|].
  apply insert_by_sorted_among; [apply _| | |done].
  - intros y _. unfold Qltb, stable_desc. rewrite negb_true_iff. intros H.
    left. apply Qnot_le_lt. intros Hle. apply Qle_bool_iff in Hle. congruence.
  - intros y Hy. unfold Qltb, stable_desc. rewrite negb_false_iff, Qle_bool_iff.
    intros Hle. fold (sorted_reverse snd ps) in Hy.
    rewrite sorted_reverse_perm in Hy.
    rewrite Forall_forall in Hx. specialize (Hx y Hy).
    destruct (Qlt_le_dec y.2 x.2) as [Hlt|Hge]; [by left|].
    right. split; [by apply Qle_antisym|done].
Qed.

Lemma enumerate_increasing {A} (l : list A) :
  StronglySorted (fun a b : nat * A => a.1 < b.1) (enumerate l).
Proof.
  induction l as [|x l IH] using rev_ind; [constructor|].
  unfold enumerate in *. rewrite imap_app. simpl.
  apply StronglySorted_app_2; [|done|repeat constructor].
  intros [i a] [j b] Ha Hb. apply list_elem_of_singleton in Hb as [= -> ->].
  apply (elem_of_enumerate l) in Ha. apply lookup_lt_Some in Ha. simpl. lia.
Qed.

(** The whole sorted row: a stable descending arrangement of the
    enumerated scores. *)
Lemma sorted_row_spec (row : list Q) :
  sorted_reverse snd (enumerate row) ≡ₚ enumerate row /\
  StronglySorted stable_desc (sorted_reverse snd (enumerate row)).
Proof.
  split; [apply sorted_reverse_perm|].
  apply sorted_reverse_stable, enumerate_increasing.
Qed.

(** ** Content-based recommendation: every outcome *)

(** The title is looked up at its first row; the label of that row
    selects the matrix row; the call then returns the rows at ranks 2 to
    11, or raises [IndexError] when the label is outside the matrix or a
    rank is outside the frame. *)
Lemma recommend_content_run title (d : ref) catalog sim_matrix s :
  s !! d = Some catalog -> wf_frame catalog ->
  title ∈ Series_Title <$> data catalog ->
  exists p idx,
    (Series_Title <$> data catalog) !! p = Some title /\
    (forall j, j < p -> (Series_Title <$> data catalog) !! j <> Some title) /\
    index catalog !! p = Some idx /\
    exists sel,
      recommend_content title d sim_matrix s
      = match sim_matrix !! idx with
        | None => (Raise IndexError, s ++ [sel])
        | Some row =>
            match frame_iloc
                    (slice 1 11 (sorted_reverse snd (enumerate row))).*1
                    catalog with
            | Some res => (Ok (S (length s)), s ++ [sel; res])
            | None => (Raise IndexError, s ++ [sel])
            end
        end.
Proof.
  intros Hd Hwf Hin.
  set (titles := Series_Title <$> data catalog) in *.
  destruct (list_find_elem_of (fun t => t = title) titles title Hin eq_refl)
    as [[p t] Hfind].
  apply list_find_Some in Hfind as (Hp & -> & Hfirst).
  assert (is_Some (index catalog !! p)) as [idx Hidx].
  { apply lookup_lt_is_Some. destruct Hwf as (_ & -> & _).
    apply lookup_lt_Some in Hp. unfold titles in Hp.
    by rewrite length_fmap in Hp. }
  exists p, idx. split; [done|]. split.
  { intros j Hj Hj'. by apply (Hfirst j title Hj' Hj). }
  split; [done|].
  set (mask := (fun t => String.eqb t title) <$> titles).
  exists (frame_getitem (Mask mask) catalog).
  assert (index (frame_getitem (Mask mask) catalog) !! 0 = Some idx) as Hsel0.
  { simpl. apply (mask_select_first mask _ p); [| |done].
    - unfold mask. rewrite list_lookup_fmap, Hp. simpl.
      by rewrite String.eqb_refl.
    - intros j Hj. unfold mask. rewrite list_lookup_fmap.
      destruct (titles !! j) as [t|] eqn:Ht; simpl.
      + f_equal. apply String.eqb_neq. intros ->. by apply (Hfirst j title Ht Hj).
      + apply lookup_ge_None in Ht. apply lookup_lt_Some in Hp. lia. }
  unfold recommend_content.
  rewrite (bind_run_ok _ _ _ _ _
             (series_run_ok ["Series_Title"] Series_Title _ _ _ Hd
                ltac:(intros c ->%list_elem_of_singleton;
                      apply wf_columns; [done|by_names]))).
  fold titles. rewrite bool_decide_eq_true_2 by done.
  change (negb true) with false. cbv iota. fold mask.
  rewrite (bind_run_ok _ _ _ _ _ (getitem_run _ (Mask mask) _ _ Hd)).
  assert ((s ++ [frame_getitem (Mask mask) catalog]) !! length s
          = Some (frame_getitem (Mask mask) catalog)) as Hsel
    by (by rewrite lookup_app_r, Nat.sub_diag).
  rewrite (bind_run_ok _ _ _ _ _ (index_at_run _ _ _ _ _ Hsel Hsel0)).
  destruct (sim_matrix !! idx) as [row|]; [|done].
  assert ((s ++ [frame_getitem (Mask mask) catalog]) !! d = Some catalog) as Hd'
    by (by apply lookup_app_l_Some).
  unfold iloc. rewrite (bind_run_ok _ _ _ _ _ (get_run _ _ _ Hd')).
  destruct (frame_iloc _ catalog) as [res|]; [|done].
  unfold new. rewrite length_app, Nat.add_1_r. by rewrite <- app_assoc.
Qed.

(** The ranks 2 to 11 of a row of [n] scores: distinct positions below
    [n], [min 10 (n - 1)] of them. *)
Lemma slice_sorted_positions (row : list Q) :
  let pos := (slice 1 11 (sorted_reverse snd (enumerate row))).*1 in
  NoDup pos /\ Forall (fun i => i < length row) pos /\
  length pos = 10 `min` (length row - 1).
Proof.
  cbv zeta. destruct (sorted_row_spec row) as [Hperm _].
  set (L := sorted_reverse snd (enumerate row)) in *.
  assert (L.*1 ≡ₚ seq 0 (length row)) as Hfst
    by (by rewrite Hperm, fst_enumerate).
  unfold slice. change (11 - 1) with 10. rewrite fmap_take, fmap_drop.
  split; [|split].
  - assert (take 10 (drop 1 L.*1) `sublist_of` L.*1) as Hsub
      by (etrans; [apply sublist_take|apply sublist_drop]).
    eapply sublist_NoDup; [|exact Hsub]. rewrite Hfst. apply NoDup_seq.
  - apply Forall_take, Forall_drop, Forall_forall. intros i Hi.
    rewrite Hfst in Hi. apply elem_of_seq in Hi. lia.
  - rewrite length_take, length_drop, Hfst, length_seq. lia.
Qed.

Lemma take_positions_seq_inv (pos found : list nat) (n : nat) :
  take_positions pos (seq 0 n) = Some found -> found = pos.
Proof.
  intros H. apply mapM_Some in H.
  induction H as [|i x pos found Hi _ IH]; [done|].
  apply lookup_seq in Hi as [-> _]. by rewrite IH.
Qed.

(** X5. With the catalog as loaded without a dropped row (labels are
    positions) and a matrix of one row of scores per film, a title of
    the catalog always gets an answer: [min 10 (n - 1)] rows of the
    catalog at distinct positions, with the catalog's columns. *)
Theorem recommend_content_returns_neighbours title (d : ref) catalog
    sim_matrix s :
  s !! d = Some catalog -> wf_frame catalog ->
  index catalog = seq 0 (length (data catalog)) ->
  length sim_matrix = length (data catalog) ->
  Forall (fun row => length row = length (data catalog)) sim_matrix ->
  title ∈ Series_Title <$> data catalog ->
  exists r s' res,
    recommend_content title d sim_matrix s = (Ok r, s') /\
    s' !! r = Some res /\
    columns res = columns catalog /\
    length (data res) = 10 `min` (length (data catalog) - 1) /\
    NoDup (index res) /\
    take_positions (index res) (data catalog) = Some (data res).
Proof.
  intros Hd Hwf Hix Hlen Hrows Hin.
  destruct (recommend_content_run title d catalog sim_matrix s Hd Hwf Hin)
    as (p & idx & Hp & _ & Hidx & sel & Hrun).
  rewrite Hix in Hidx. apply lookup_seq in Hidx as [Hpi Hlt].
  simpl in Hpi. subst idx. unfold matrix in *.
  destruct (sim_matrix !! p) as [row|] eqn:Hrow;
    [|apply lookup_ge_None in Hrow; lia].
  assert (length row = length (data catalog)) as Hrowlen.
  { rewrite Forall_forall in Hrows. apply Hrows.
    by eapply list_elem_of_lookup_2. }
  destruct (slice_sorted_positions row) as (Hnd & Hrange & Hcount).
  rewrite Hrowlen in Hrange, Hcount.
  destruct (frame_iloc_in_range _ _ Hwf Hrange)
    as (res & Hiloc & Hcols & Hres_ix & Hres_data).
  rewrite Hiloc in Hrun. rewrite Hix in Hres_ix.
  apply take_positions_seq_inv in Hres_ix.
  exists (S (length s)), (s ++ [sel; res]), res. split; [done|]. split.
  { replace (s ++ [sel; res]) with ((s ++ [sel]) ++ [res])
      by (by rewrite <- app_assoc).
    apply list_lookup_middle. rewrite length_app. simpl. lia. }
  split; [done|]. split.
  { apply length_mapM in Hres_data. by rewrite <- Hres_data. }
  split; [by rewrite Hres_ix|]. by rewrite Hres_ix.
Qed.

Lemma recommend_content_returns_neighbours_witness :
  exists r s' res,
    recommend_content "Inception" 0 diagonal_matrix [sample_catalog] = (Ok r, s') /\
    s' !! r = Some res /\
    columns res = columns sample_catalog /\
    length (data res) = 10 `min` (length (data sample_catalog) - 1) /\
    NoDup (index res) /\
    take_positions (index res) (data sample_catalog) = Some (data res).
Proof.
  apply (recommend_content_returns_neighbours "Inception" 0 sample_catalog
           diagonal_matrix [sample_catalog]).
  - reflexivity.
  - apply wf_sample_catalog.
  - reflexivity.
  - reflexivity.
  - repeat constructor.
  - by_names.
Defined.

(** X6. In the same setting the answer is ranked: its labels are the
    positions at ranks 2 to 11 of the matrix row of the first film with
    the title, sorted by descending score, films of equal score in
    catalog order. *)
Theorem recommend_content_ranks title (d : ref) catalog sim_matrix s :
  s !! d = Some catalog -> wf_frame catalog ->
  index catalog = seq 0 (length (data catalog)) ->
  length sim_matrix = length (data catalog) ->
  Forall (fun row => length row = length (data catalog)) sim_matrix ->
  title ∈ Series_Title <$> data catalog ->
  exists p row ranked r s' res,
    (Series_Title <$> data catalog) !! p = Some title /\
    (forall j, j < p -> (Series_Title <$> data catalog) !! j <> Some title) /\
    sim_matrix !! p = Some row /\
    ranked ≡ₚ enumerate row /\
    StronglySorted stable_desc ranked /\
    recommend_content title d sim_matrix s = (Ok r, s') /\
    s' !! r = Some res /\
    index res = (take 10 (drop 1 ranked)).*1.
Proof.
  intros Hd Hwf Hix Hlen Hrows Hin.
  destruct (recommend_content_run title d catalog sim_matrix s Hd Hwf Hin)
    as (p & idx & Hp & Hfirst & Hidx & sel & Hrun).
  rewrite Hix in Hidx. apply lookup_seq in Hidx as [Hpi Hlt].
  simpl in Hpi. subst idx. unfold matrix in *.
  destruct (sim_matrix !! p) as [row|] eqn:Hrow;
    [|apply lookup_ge_None in Hrow; lia].
  assert (length row = length (data catalog)) as Hrowlen.
  { rewrite Forall_forall in Hrows. apply Hrows.
    by eapply list_elem_of_lookup_2. }
  destruct (slice_sorted_positions row) as (_ & Hrange & _).
  rewrite Hrowlen in Hrange.
  destruct (frame_iloc_in_range _ _ Hwf Hrange)
    as (res & Hiloc & _ & Hres_ix & _).
  rewrite Hiloc in Hrun. rewrite Hix in Hres_ix.
  apply take_positions_seq_inv in Hres_ix.
  destruct (sorted_row_spec row) as [Hperm Hsorted].
  exists p, row, (sorted_reverse snd (enumerate row)),
         (S (length s)), (s ++ [sel; res]), res.
  do 6 (split; [done|]). split; [|done].
  replace (s ++ [sel; res]) with ((s ++ [sel]) ++ [res])
    by (by rewrite <- app_assoc).
  apply list_lookup_middle. rewrite length_app. simpl. lia.
Qed.

Lemma recommend_content_ranks_witness :
  exists p row ranked r s' res,
    (Series_Title <$> data twin_catalog) !! p = Some "Blade Runner" /\
    (forall j, j < p ->
               (Series_Title <$> data twin_catalog) !! j <> Some "Blade Runner") /\
    twin_matrix !! p = Some row /\
    ranked ≡ₚ enumerate row /\
    StronglySorted stable_desc ranked /\
    recommend_content "Blade Runner" 0 twin_matrix [twin_catalog] = (Ok r, s') /\
    s' !! r = Some res /\
    index res = (take 10 (drop 1 ranked)).*1.
Proof.
  apply (recommend_content_ranks "Blade Runner" 0 twin_catalog twin_matrix
           [twin_catalog]).
  - reflexivity.
  - apply wf_twin_catalog.
  - reflexivity.
  - reflexivity.
  - repeat constructor.
  - by_names.
Defined.

(** X7. A label outside the matrix ends the call in [IndexError]: the
    label of the first row with the title is used as a row number of the
    matrix, and nothing checks it.  No object that existed is changed.
    After [load_data] dropped a row this happens for every film whose
    label is not below the number of rows kept. *)
Theorem recommend_content_label_outside_matrix title (d : ref) catalog
    sim_matrix s (p idx : nat) :
  s !! d = Some catalog -> wf_frame catalog ->
  (Series_Title <$> data catalog) !! p = Some title ->
  (forall j, j < p -> (Series_Title <$> data catalog) !! j <> Some title) ->
  index catalog !! p = Some idx ->
  length sim_matrix <= idx ->
  (recommend_content title d sim_matrix s).1 = Raise IndexError /\
  (recommend_content title d sim_matrix s).2 !! d = Some catalog.
Proof.
  intros Hd Hwf Hp Hfirst Hidx Hout. split.
  - destruct (recommend_content_run title d catalog sim_matrix s Hd Hwf)
      as (p' & idx' & Hp' & Hfirst' & Hidx' & sel & Hrun);
      [by eapply list_elem_of_lookup_2|].
    assert (p' = p) as ->.
    { destruct (Nat.lt_trichotomy p' p) as [Hlt|[->|Hlt]]; [|done|].
      - by destruct (Hfirst p' Hlt).
      - by destruct (Hfirst' p Hlt). }
    assert (idx' = idx) as -> by congruence.
    unfold matrix in *. rewrite Hrun.
    by rewrite (proj2 (lookup_ge_None sim_matrix idx) Hout).
  - eapply prefix_lookup_Some; [done|apply allocates_only_recommend_content].
Qed.

Lemma recommend_content_label_outside_matrix_witness :
  (recommend_content "B" 0 diagonal_matrix [load_data no_parse sample_csv]).1
  = Raise IndexError /\
  (recommend_content "B" 0 diagonal_matrix [load_data no_parse sample_csv]).2 !! 0
  = Some (load_data no_parse sample_csv).
Proof.
  apply (recommend_content_label_outside_matrix "B" 0
           (load_data no_parse sample_csv) diagonal_matrix
           [load_data no_parse sample_csv] 1 2).
  - reflexivity.
  - apply wf_load_data.
  - reflexivity.
  - intros j Hj. assert (j = 0) as -> by lia. vm_compute. discriminate.
  - reflexivity.
  - vm_compute. lia.
Defined.

(** ** Building the similarity matrix: every outcome *)

Lemma documents_of_rows (rows : list Movie) :
  (forall m, m ∈ rows -> Director m <> None) ->
  exists docs,
    mapM id (metadata_of <$> rows) = Some docs /\
    Forall2 (fun m doc =>
               exists dir, Director m = Some dir /\
                 doc = String.concat " "
                         [fillna "" (Overview m); Genre m; dir;
                          Star1 m; Star2 m; Star3 m; Star4 m]) rows docs.
Proof.
  induction rows as [|m rows IH]; intros Hdir.
  - exists []. by split; [|constructor].
  - destruct IH as (docs & Hdocs & Hall);
      [intros m' Hm'; apply Hdir; by right|].
    destruct (Director m) as [dir|] eqn:Hm; [|destruct (Hdir m); [left|done]].
    eexists (_ :: docs). split.
    + apply mapM_Some. rewrite fmap_cons. constructor.
      * exact (metadata_of_director m dir Hm).
      * by apply mapM_Some.
    + constructor; [|done]. by exists dir.
Qed.

Lemma documents_missing (rows : list Movie) (m : Movie) :
  m ∈ rows -> Director m = None -> mapM id (metadata_of <$> rows) = None.
Proof.
  intros Hm Hdir. apply mapM_None. apply Exists_exists.
  exists None. split; [|done].
  apply list_elem_of_fmap. exists m. split; [|done].
  symmetry. by apply metadata_of_None.
Qed.

(** X2. What building the matrix comes to on a well-formed catalog.  The
    [metadata] column is assigned in every case.  When every film has a
    director, the vectorizer, created with the English stop words, is
    run on one document per film in catalog order: the seven fields
    joined by single spaces, a missing overview as the empty text.  The
    call returns the cosine matrix of what the vectorizer returns, and
    raises what the vectorizer raises; so a catalog without films, on
    which the vectorizer has no term and raises [ValueError], ends in
    [ValueError].  When some film has no director the call raises
    [ValueError] as well. *)
Theorem build_similarity_matrix_outcome sparse
    (fit_transform : TfidfVectorizer -> list string -> result sparse)
    (cosine_similarity : sparse -> matrix) (d : ref) catalog s :
  s !! d = Some catalog -> wf_frame catalog ->
  let out := build_similarity_matrix sparse fit_transform cosine_similarity d s in
  out.2 = <[d := with_metadata catalog]> s /\
  ((forall m, m ∈ data catalog -> Director m <> None) ->
   exists docs,
     Forall2 (fun m doc =>
                exists dir, Director m = Some dir /\
                  doc = String.concat " "
                          [fillna "" (Overview m); Genre m; dir;
                           Star1 m; Star2 m; Star3 m; Star4 m])
             (data catalog) docs /\
     out.1 = match fit_transform {| stop_words := Some "english" |} docs with
             | Ok tfidf_matrix => Ok (cosine_similarity tfidf_matrix)
             | Raise e => Raise e
             end) /\
  (data catalog = [] ->
   fit_transform {| stop_words := Some "english" |} [] = Raise ValueError ->
   out.1 = Raise ValueError) /\
  ((exists m, m ∈ data catalog /\ Director m = None) ->
   out.1 = Raise ValueError).
Proof.
  intros Hd Hwf. cbv zeta.
  rewrite (build_similarity_matrix_run _ _ _ _ _ _ Hd Hwf). simpl.
  split; [done|]. split; [|split].
  - intros Hdir. destruct (documents_of_rows _ Hdir) as (docs & -> & Hall).
    by exists docs.
  - intros -> Hnone. cbn. by rewrite Hnone.
  - intros (m & Hm & Hdir). by rewrite (documents_missing _ m Hm Hdir).
Qed.

Lemma build_similarity_matrix_outcome_witness :
  let out := build_similarity_matrix (list string) sample_fit_transform
               (fun _ => diagonal_matrix) 0 [sample_catalog] in
  out.2 = <[0 := with_metadata sample_catalog]> [sample_catalog] /\
  ((forall m, m ∈ data sample_catalog -> Director m <> None) ->
   exists docs,
     Forall2 (fun m doc =>
                exists dir, Director m = Some dir /\
                  doc = String.concat " "
                          [fillna "" (Overview m); Genre m; dir;
                           Star1 m; Star2 m; Star3 m; Star4 m])
             (data sample_catalog) docs /\
     out.1 = match sample_fit_transform {| stop_words := Some "english" |}
                     docs with
             | Ok tfidf_matrix => Ok diagonal_matrix
             | Raise e => Raise e
             end) /\
  (data sample_catalog = [] ->
   sample_fit_transform {| stop_words := Some "english" |} [] = Raise ValueError ->
   out.1 = Raise ValueError) /\
  ((exists m, m ∈ data sample_catalog /\ Director m = None) ->
   out.1 = Raise ValueError).
Proof.
  apply (build_similarity_matrix_outcome (list string) sample_fit_transform
           (fun _ => diagonal_matrix) 0 sample_catalog [sample_catalog]).
  - reflexivity.
  - apply wf_sample_catalog.
Defined.

(** X3. On a frame that lacks one of the seven columns of lines 22-23
    (such as the empty frame an unknown title gives) the call raises
    [KeyError] before it assigns anything: the store is left as it
    was. *)
Theorem build_similarity_matrix_missing_column sparse
    (fit_transform : TfidfVectorizer -> list string -> result sparse)
    (cosine_similarity : sparse -> matrix) (d : ref) df s (name : string) :
  s !! d = Some df ->
  name ∈ ["Overview"; "Genre"; "Director"; "Star1"; "Star2"; "Star3"; "Star4"] ->
  name ∉ columns df ->
  build_similarity_matrix sparse fit_transform cosine_similarity d s
  = (Raise KeyError, s).
Proof.
  intros Hd Hname Hmissing. unfold build_similarity_matrix.
  rewrite bind_run, (series_run _ _ _ _ _ Hd). unfold frame_series.
  rewrite bool_decide_eq_false_2; [done|].
  intros Hsub. by apply Hmissing, Hsub.
Qed.

Lemma build_similarity_matrix_missing_column_witness :
  build_similarity_matrix (list string) sample_fit_transform
    (fun _ => diagonal_matrix) 0 [empty_frame]
  = (Raise KeyError, [empty_frame]).
Proof.
  apply (build_similarity_matrix_missing_column (list string)
           sample_fit_transform (fun _ => diagonal_matrix) 0 empty_frame
           [empty_frame] "Director").
  - reflexivity.
  - by_names.
  - by_names.
Defined.

Lemma with_metadata_idemp df : with_metadata (with_metadata df) = with_metadata df.
Proof.
  unfold with_metadata. simpl. f_equal.
  rewrite (bool_decide_eq_true_2
             ("metadata" ∈ if bool_decide ("metadata" ∈ columns df)
                           then columns df else columns df ++ ["metadata"])); [done|].
  case_bool_decide; [done|]. apply elem_of_app. right. left.
Qed.

(** X4. Building twice is building once: the second call overwrites the
    [metadata] column with the same values instead of adding another
    column, leaves the store as the first call left it, and has the
    same outcome. *)
Theorem build_similarity_matrix_twice sparse
    (fit_transform : TfidfVectorizer -> list string -> result sparse)
    (cosine_similarity : sparse -> matrix) (d : ref) catalog s :
  s !! d = Some catalog -> wf_frame catalog ->
  let once := build_similarity_matrix sparse fit_transform cosine_similarity d s in
  build_similarity_matrix sparse fit_transform cosine_similarity d once.2 = once.
Proof.
  intros Hd Hwf. cbv zeta.
  rewrite (build_similarity_matrix_run _ _ _ _ _ _ Hd Hwf). simpl.
  assert (<[d := with_metadata catalog]> s !! d = Some (with_metadata catalog))
    as Hd' by (apply list_lookup_insert_eq; by eapply lookup_lt_Some).
  rewrite (build_similarity_matrix_run _ _ _ _ _ _ Hd'
             (wf_with_metadata _ Hwf)).
  rewrite with_metadata_idemp. unfold store in *.
  by rewrite list_insert_insert_eq.
Qed.

Lemma build_similarity_matrix_twice_witness :
  let once := build_similarity_matrix (list string) sample_fit_transform
                (fun _ => diagonal_matrix) 0 [sample_catalog] in
  build_similarity_matrix (list string) sample_fit_transform
    (fun _ => diagonal_matrix) 0 once.2 = once.
Proof.
  apply (build_similarity_matrix_twice (list string) sample_fit_transform
           (fun _ => diagonal_matrix) 0 sample_catalog [sample_catalog]).
  - reflexivity.
  - apply wf_sample_catalog.
Defined.

(** ** Attribute-based recommendation: every outcome *)

Lemma zip_mask_select {A B} (p : B -> bool) (i : list A) (d : list B) :
  length i = length d ->
  zip (mask_select (p <$> d) i) (mask_select (p <$> d) d)
  = List.filter (fun x => p x.2) (zip i d).
Proof.
  revert d. induction i as [|a i IH]; intros [|b d] Hlen; try done.
  rewrite fmap_cons. simpl in *. destruct (p b); simpl; rewrite IH by lia; done.
Qed.

Lemma lrows_nil df : wf_frame df -> lrows df = [] <-> data df = [].
Proof.
  intros (_ & Hlen & _). unfold lrows.
  destruct (index df), (data df); simpl in *; try done.
Qed.

Lemma lrows_data df : wf_frame df -> (lrows df).*2 = data df.
Proof. intros (_ & Hlen & _). apply snd_zip. lia. Qed.

Lemma lrows_frame_mask (p : Movie -> bool) df :
  wf_frame df ->
  lrows (frame_mask (p <$> data df) df)
  = List.filter (fun lm => p lm.2) (lrows df).
Proof. intros (_ & Hlen & _). by apply zip_mask_select. Qed.

Lemma take_positions_zip {A B} pos (i i' : list A) (d d' : list B) :
  take_positions pos i = Some i' -> take_positions pos d = Some d' ->
  take_positions pos (zip i d) = Some (zip i' d').
Proof.
  unfold take_positions. rewrite !mapM_Some. intros Hi. revert d'.
  induction Hi as [|k a pos i' Ha _ IH]; intros d' Hd;
    inversion Hd as [|? b ? d'' Hb Hd']; subst; simpl; constructor.
  - rewrite lookup_zip_with, Ha. simpl. by rewrite Hb.
  - by apply IH.
Qed.

(** One optional selection moves the phase on. *)
Lemma phase_select_step {A} cols ph o (b : bool) name names (c : Movie -> A)
    (f : A -> bool) :
  name :: names ⊆ csv_columns ->
  at_phase cols ph o ->
  at_phase cols (phase_select b (f ∘ c) ph) (o ≫= select_if b (name :: names) c f).
Proof.
  intros Hnames [fr Hwf Hcols | fr Hbare | ]; cbn [mbind result_bind phase_select].
  - unfold select_if. destruct b; [|by apply at_full].
    rewrite frame_series_ok by (etrans; [done|apply Hwf]).
    cbn [mbind result_bind].
    destruct (data fr) as [|m rows] eqn:Hrows.
    + rewrite (proj2 (lrows_nil fr Hwf) Hrows). by apply at_bare.
    + destruct (lrows fr) as [|lm lr] eqn:Hlr;
        [apply (lrows_nil fr Hwf) in Hlr; congruence|].
      rewrite apply_nonempty by (by destruct rows).
      rewrite <- Hlr, <- Hrows, <- list_fmap_compose.
      rewrite <- (lrows_frame_mask (f ∘ c) fr Hwf).
      apply at_full; [by apply wf_frame_mask|done].
  - unfold select_if. destruct b.
    + rewrite frame_series_bare by done. apply at_raised.
    + by apply at_bare.
  - apply at_raised.
Qed.

Lemma phase_rating_step cols ph o (rating : Q) :
  at_phase cols ph o ->
  at_phase cols (phase_rating rating ph)
    (f3 ← o;
     col ← frame_series ["IMDB_Rating"] IMDB_Rating f3;
     Ok (frame_getitem (Mask ((fun x => float_ge x rating) <$> col)) f3)).
Proof.
  intros [fr Hwf Hcols | fr Hbare | ]; cbn [mbind result_bind phase_rating].
  - rewrite frame_series_ok
      by (intros c ->%list_elem_of_singleton; apply wf_columns; [done|by_names]).
    cbn [mbind result_bind frame_getitem]. rewrite <- list_fmap_compose.
    pose proof (at_full cols _ (wf_frame_mask
                  (((fun x => float_ge x rating) ∘ IMDB_Rating) <$> data fr)
                  fr Hwf) Hcols) as H.
    rewrite lrows_frame_mask in H by done. exact H.
  - rewrite frame_series_bare by done. apply at_raised.
  - apply at_raised.
Qed.

Lemma frame_sort_rows argsort fr :
  argsort_contract argsort -> wf_frame fr ->
  exists srt, frame_sort argsort fr = Ok srt /\
              wf_frame srt /\ columns srt = columns fr /\
              lrows srt ≡ₚ lrows fr /\
              StronglySorted (fun a b => by_rating a.2 b.2) (lrows srt).
Proof.
  intros Hsort Hwf. unfold frame_sort.
  rewrite frame_series_ok
    by (intros c ->%list_elem_of_singleton; apply wf_columns; [done|by_names]).
  cbn [mbind result_bind].
  destruct (Hsort (IMDB_Rating <$> data fr)) as [Hperm Hsorted].
  rewrite length_fmap in Hperm.
  assert (Forall (fun i => i < length (data fr)) (argsort (IMDB_Rating <$> data fr)))
    as Hrange.
  { apply Forall_forall. intros i Hi. rewrite Hperm in Hi.
    apply elem_of_seq in Hi. lia. }
  destruct (frame_iloc_in_range _ _ Hwf Hrange)
    as (srt & Hiloc & Hcols & Hix & Hdata).
  rewrite Hiloc. exists srt. split; [done|].
  pose proof (take_positions_zip _ _ _ _ _ Hix Hdata) as Hzip.
  fold (lrows fr) in Hzip. fold (lrows srt) in Hzip.
  assert (length (index srt) = length (data srt)) as Hlen
    by (apply length_mapM in Hix, Hdata; congruence).
  split; [|split; [done|split]].
  - split; [by rewrite Hcols; apply Hwf|]. split; [done|].
    intros col Hcol. unfold frame_iloc in Hiloc.
    rewrite Hix, Hdata in Hiloc. simpl in Hiloc.
    destruct (metadata fr) as [c|]; simpl in Hiloc.
    + destruct (take_positions _ c) as [md|] eqn:Hmd; simpl in Hiloc; [|done].
      simplify_eq/=. apply length_mapM in Hmd, Hdata.
      rewrite <- Hiloc in Hcol. simpl in Hcol. injection Hcol as <-. congruence.
    + simplify_eq/=. rewrite <- Hiloc in Hcol. done.
  - eapply take_positions_perm; [|exact Hzip].
    unfold lrows. rewrite length_zip_with.
    destruct Hwf as (_ & -> & _). by rewrite Nat.min_id.
  - apply (take_positions_fmap IMDB_Rating) in Hdata.
    specialize (Hsorted _ Hdata).
    assert (StronglySorted by_rating (data srt)) as Hs.
    { clear -Hsorted. induction (data srt) as [|x l IH]; [constructor|].
      rewrite fmap_cons in Hsorted.
      apply StronglySorted_inv in Hsorted as [Hl Hx].
      constructor; [auto|]. rewrite Forall_fmap in Hx. exact Hx. }
    unfold lrows. clear -Hs Hlen. revert Hlen Hs.
    generalize (index srt) (data srt). intros i d. revert d.
    induction i as [|a i IH]; intros [|b d] Hlen Hs; simpl; try constructor.
    + apply IH; [simpl in Hlen; lia|]. by apply StronglySorted_inv in Hs as [? _].
    + apply StronglySorted_inv in Hs as [_ Hb]. apply Forall_forall.
      intros [a' b'] Hin. apply elem_of_zip_r in Hin. simpl.
      rewrite Forall_forall in Hb. by apply Hb.
Qed.

Lemma lrows_frame_head n df : lrows (frame_head n df) = take n (lrows df).
Proof. unfold lrows. simpl. symmetry. apply zip_with_take. Qed.

Lemma wf_frame_head n df : wf_frame df -> wf_frame (frame_head n df).
Proof.
  intros (Hcols & Hlen & Hmd). split; [done|]. split; simpl.
  - rewrite !length_take. lia.
  - intros col. destruct (metadata df) as [c|]; simpl; [|done].
    intros [= <-]. rewrite !length_take, (Hmd c); done.
Qed.

(** What the chain of frames comes to, by phase. *)
Lemma attributes_frame_phase argsort genres stars years rating df :
  argsort_contract argsort -> wf_frame df ->
  match attributes_phase genres stars years rating (lrows df) with
  | Full rows =>
      exists res ranked,
        attributes_frame argsort genres stars years rating df = Ok res /\
        wf_frame res /\ columns res = columns df /\
        ranked ≡ₚ rows /\
        StronglySorted (fun a b => by_rating a.2 b.2) ranked /\
        lrows res = take 10 ranked
  | _ => attributes_frame argsort genres stars years rating df = Raise KeyError
  end.
Proof.
  intros Hsort Hwf. unfold attributes_frame, attributes_phase.
  pose proof (at_full (columns df) df Hwf eq_refl) as H.
  apply (phase_select_step _ _ _ (bool_decide (genres ≠ [])) "Genre" [] Genre
           (fun x => any (fun g => contains g x) genres)) in H; [|by_names].
  apply (phase_select_step _ _ _ (bool_decide (stars ≠ []))
           "Star1" ["Star2"; "Star3"; "Star4"]
           (fun m => [Star1 m; Star2 m; Star3 m; Star4 m])
           (fun row => any (fun star => str_in star stars) row)) in H;
    [|by_names].
  apply (phase_select_step _ _ _ (bool_decide (years ≠ [])) "Released_Year" []
           Released_Year (fun y => year_in y years)) in H; [|by_names].
  apply (phase_rating_step _ _ _ rating) in H.
  change (Ok df ≫= ?g) with (g df) in H.
  unfold compose in H.
  match type of H with
  | at_phase _ (phase_rating _ ?ph) _ => generalize dependent ph
  end.
  intros ph H.
  repeat match goal with
         | |- context [select_if ?b ?n ?c ?f ?x] =>
             destruct (select_if b n c f x); cbn [mbind result_bind] in *
         end;
    try (destruct (frame_series ["IMDB_Rating"] IMDB_Rating _);
         cbn [mbind result_bind] in * );
    inversion H as [fr Hwf4 Hcols Hph Hfr | fr Hbare Hph Hfr | Hph Hfr];
    try (by destruct ph); try done.
  subst fr.
  destruct (frame_sort_rows argsort _ Hsort Hwf4)
    as (srt & Hsrt & Hwfs & Hcs & Hperm & Hsorted).
  exists (frame_head 10 srt), (lrows srt).
  cbn [frame_getitem]. rewrite Hsrt. cbn [mbind result_bind].
  split; [done|]. split; [by apply wf_frame_head|].
  split; [simpl; congruence|]. split; [done|]. split; [done|].
  apply lrows_frame_head.
Qed.

Lemma filter_snd {A B} (p : B -> bool) (l : list (A * B)) :
  (List.filter (fun x => p x.2) l).*2 = List.filter p l.*2.
Proof.
  induction l as [|[a b] l IH]; [done|]. rewrite fmap_cons. simpl.
  destruct (p b); [rewrite fmap_cons|]; by rewrite IH.
Qed.

Lemma no_rows_fmap {A B} (f : A -> B) (l : list A) : no_rows (f <$> l) = no_rows l.
Proof. by destruct l. Qed.

Lemma phase_select_Full (b : bool) (p : Movie -> bool) lr :
  phase_select b p (Full lr)
  = if b && no_rows lr then Bare
    else Full (List.filter (fun lm => if b then p lm.2 else true) lr).
Proof.
  destruct b; simpl; [|by rewrite filter_true]. by destruct lr.
Qed.

(** The phase the chain ends in: [KeyError] when an applied selection
    meets no rows, otherwise the rows that pass. *)
Lemma attributes_phase_spec genres stars years rating lr :
  attributes_phase genres stars years rating lr
  = if meets_no_rows genres stars years lr.*2 then Raised
    else Full (List.filter (fun lm => passes genres stars years rating lm.2) lr).
Proof.
  unfold attributes_phase, meets_no_rows, passes.
  rewrite <- !filter_snd, !no_rows_fmap.
  generalize (bool_decide (genres ≠ [])) (bool_decide (stars ≠ []))
             (bool_decide (years ≠ [])).
  intros b1 b2 b3. rewrite phase_select_Full.
  destruct (b1 && no_rows lr); [by destruct b2, b3|].
  rewrite phase_select_Full.
  destruct (b2 && no_rows _); [by destruct b3|].
  rewrite phase_select_Full.
  destruct (b3 && no_rows _); [done|]. simpl.
  rewrite !filter_filter. f_equal. apply List.filter_ext.
  intros lm. by rewrite ?andb_assoc.
Qed.

(** The store version, by cases on [meets_no_rows]. *)
Lemma recommend_attributes_outcome argsort (d : ref) catalog genres stars years
    rating s :
  argsort_contract argsort -> wf_frame catalog -> s !! d = Some catalog ->
  if meets_no_rows genres stars years (data catalog)
  then exists s', recommend_attributes argsort d genres stars years rating s
                  = (Raise KeyError, s')
  else exists r s' res ranked,
         recommend_attributes argsort d genres stars years rating s = (Ok r, s') /\
         s' !! r = Some res /\
         wf_frame res /\ columns res = columns catalog /\
         ranked ≡ₚ List.filter (fun lm => passes genres stars years rating lm.2)
                     (lrows catalog) /\
         StronglySorted (fun a b => by_rating a.2 b.2) ranked /\
         lrows res = take 10 ranked.
Proof.
  intros Hsort Hwf Hd.
  pose proof (attributes_frame_phase argsort genres stars years rating catalog
                Hsort Hwf) as Hphase.
  rewrite attributes_phase_spec, (lrows_data _ Hwf) in Hphase.
  pose proof (recommend_attributes_computes argsort d catalog genres stars
                years rating s Hd) as Hrun.
  destruct (meets_no_rows genres stars years (data catalog)).
  - rewrite Hphase in Hrun. destruct Hrun as (ext & Hrun). eauto.
  - destruct Hphase as (res & ranked & Hres & Hwfr & Hcols & Hperm & Hsorted & Hl).
    rewrite Hres in Hrun. destruct Hrun as (r & ext & Hrun & Hr).
    exists r, (s ++ ext), res, ranked. auto 10.
Qed.

Lemma filter_sublist {A} (p : A -> bool) (l : list A) :
  List.filter p l `sublist_of` l.
Proof.
  induction l as [|x l IH]; simpl; [done|].
  destruct (p x); by constructor.
Qed.

Lemma passes_meets_rows genres stars years rating rows (m : Movie) :
  m ∈ rows -> passes genres stars years rating m = true ->
  meets_no_rows genres stars years rows = false.
Proof.
  intros Hm Hpass. unfold passes in Hpass.
  apply andb_true_iff in Hpass as [Hpass _].
  apply andb_true_iff in Hpass as [Hpass _].
  apply andb_true_iff in Hpass as [Hg Hs].
  unfold meets_no_rows.
  assert (forall (p : Movie -> bool) l, m ∈ l -> p m = true ->
                                        m ∈ List.filter p l) as Hin.
  { intros p l Hl Hp. apply list_elem_of_In, filter_In.
    by rewrite <- list_elem_of_In. }
  assert (forall l : list Movie, m ∈ l -> no_rows l = false) as Hno.
  { intros [|x l] Hl; [by apply elem_of_nil in Hl|done]. }
  rewrite (Hno rows Hm), (Hno _ (Hin _ _ Hm Hg)),
    (Hno _ (Hin _ _ (Hin _ _ Hm Hg) Hs)).
  by rewrite !andb_false_r.
Qed.

(** X8. When [recommend_attributes] raises.  On a well-formed catalog
    the call ends in [KeyError] exactly when a selection that is applied
    meets no rows (the genres an empty catalog, the stars no row left by
    the genres, the years no row left by genres and stars); the rating
    plays no part in it.  So it cannot raise when no genre, star or year
    is given, nor when some film passes all selections; the catalog is
    unchanged either way. *)
Theorem recommend_attributes_raises_exactly argsort (d : ref) catalog
    genres stars years rating s :
  argsort_contract argsort -> wf_frame catalog -> s !! d = Some catalog ->
  let out := recommend_attributes argsort d genres stars years rating s in
  ((exists s', out = (Raise KeyError, s')) <->
   meets_no_rows genres stars years (data catalog) = true) /\
  ((exists r s' res, out = (Ok r, s') /\ s' !! r = Some res) <->
   meets_no_rows genres stars years (data catalog) = false) /\
  (genres = [] -> stars = [] -> years = [] ->
   meets_no_rows genres stars years (data catalog) = false) /\
  ((exists m, m ∈ data catalog /\ passes genres stars years rating m = true) ->
   meets_no_rows genres stars years (data catalog) = false).
Proof.
  intros Hsort Hwf Hd. cbv zeta.
  pose proof (recommend_attributes_outcome argsort d catalog genres stars years
                rating s Hsort Hwf Hd) as Hout.
  split; [|split; [|split]].
  - destruct (meets_no_rows genres stars years (data catalog)).
    + by split.
    + destruct Hout as (r & s' & res & ranked & Hrun & _).
      split; [|done]. intros [s'' Hs'']. congruence.
  - destruct (meets_no_rows genres stars years (data catalog)).
    + destruct Hout as (s' & Hrun). split; [|done].
      intros (r & s'' & res & Hs'' & _). congruence.
    + destruct Hout as (r & s' & res & ranked & Hrun & Hr & _).
      split; [done|]. intros _. eauto.
  - intros -> -> ->. done.
  - intros (m & Hm & Hpass). by eapply passes_meets_rows.
Qed.

Lemma recommend_attributes_raises_exactly_witness :
  exists s',
    recommend_attributes stable_argsort 0 ["Sci-Fi"] ["Tom Hanks"] [2010%Z] 8
      [mixed_catalog] = (Raise KeyError, s').
Proof.
  apply (proj1 (recommend_attributes_raises_exactly stable_argsort 0
                  mixed_catalog ["Sci-Fi"] ["Tom Hanks"] [2010%Z] 8
                  [mixed_catalog] stable_argsort_contract wf_mixed_catalog
                  eq_refl)).
  reflexivity.
Defined.

(** X9. What is returned, when the call returns: a well-formed frame
    with the columns of the catalog, whose rows are rows of the catalog
    under their own labels, none of them twice, at most ten, every one
    passing all the selections. *)
Theorem recommend_attributes_returns_catalog_rows argsort (d : ref) catalog
    genres stars years rating s :
  argsort_contract argsort -> wf_frame catalog -> s !! d = Some catalog ->
  meets_no_rows genres stars years (data catalog) = false ->
  exists r s' res,
    recommend_attributes argsort d genres stars years rating s = (Ok r, s') /\
    s' !! r = Some res /\
    wf_frame res /\
    columns res = columns catalog /\
    lrows res ⊆+ lrows catalog /\
    length (lrows res) <= 10 /\
    forall label m, (label, m) ∈ lrows res ->
                    passes genres stars years rating m = true.
Proof.
  intros Hsort Hwf Hd Hmeets.
  pose proof (recommend_attributes_outcome argsort d catalog genres stars years
                rating s Hsort Hwf Hd) as Hout.
  rewrite Hmeets in Hout.
  destruct Hout as (r & s' & res & ranked & Hrun & Hr & Hwfr & Hcols & Hperm
                    & _ & Hl).
  exists r, s', res. do 4 (split; [done|]). rewrite Hl. split; [|split].
  - etrans; [apply submseteq_take|]. rewrite Hperm.
    apply sublist_submseteq, filter_sublist.
  - rewrite length_take. lia.
  - intros label m Hin. apply subseteq_take in Hin. rewrite Hperm in Hin.
    apply list_elem_of_In, filter_In in Hin. by destruct Hin.
Qed.

Lemma recommend_attributes_returns_catalog_rows_witness :
  exists r s' res,
    recommend_attributes stable_argsort 0 ["Sci-Fi"] [] [] 8 [mixed_catalog]
    = (Ok r, s') /\
    s' !! r = Some res /\
    wf_frame res /\
    columns res = columns mixed_catalog /\
    lrows res ⊆+ lrows mixed_catalog /\
    length (lrows res) <= 10 /\
    forall label m, (label, m) ∈ lrows res ->
                    passes ["Sci-Fi"] [] [] 8 m = true.
Proof.
  apply (recommend_attributes_returns_catalog_rows stable_argsort 0
           mixed_catalog ["Sci-Fi"] [] [] 8 [mixed_catalog]).
  - apply stable_argsort_contract.
  - apply wf_mixed_catalog.
  - reflexivity.
  - reflexivity.
Defined.

(** X10. Raising the rating only removes films.  For two thresholds
    [low <= high] and the same other arguments, both calls return or
    both raise; when they return, every film returned for [high] passes
    for [low], and is also returned for [low] when at most ten films
    pass for [low]. *)
Theorem raising_the_rating_only_removes argsort (d : ref) catalog
    genres stars years (low high : Q) s :
  argsort_contract argsort -> wf_frame catalog -> s !! d = Some catalog ->
  (low <= high)%Q ->
  meets_no_rows genres stars years (data catalog) = false ->
  exists r1 s1 res1 r2 s2 res2,
    recommend_attributes argsort d genres stars years low s = (Ok r1, s1) /\
    s1 !! r1 = Some res1 /\
    recommend_attributes argsort d genres stars years high s = (Ok r2, s2) /\
    s2 !! r2 = Some res2 /\
    (forall lm, lm ∈ lrows res2 -> passes genres stars years low lm.2 = true) /\
    (length (List.filter (passes genres stars years low) (data catalog)) <= 10 ->
     forall lm, lm ∈ lrows res2 -> lm ∈ lrows res1).
Proof.
  intros Hsort Hwf Hd Hle Hmeets.
  pose proof (recommend_attributes_outcome argsort d catalog genres stars years
                low s Hsort Hwf Hd) as H1.
  pose proof (recommend_attributes_outcome argsort d catalog genres stars years
                high s Hsort Hwf Hd) as H2.
  rewrite Hmeets in H1, H2.
  destruct H1 as (r1 & s1 & res1 & ranked1 & Hrun1 & Hr1 & _ & _ & Hperm1 & _ & Hl1).
  destruct H2 as (r2 & s2 & res2 & ranked2 & Hrun2 & Hr2 & _ & _ & Hperm2 & _ & Hl2).
  exists r1, s1, res1, r2, s2, res2. do 4 (split; [done|]).
  assert (forall m, passes genres stars years high m = true ->
                    passes genres stars years low m = true) as Hmono.
  { intros m. rewrite !passes_spec.
    intros (Hg & Hs & Hy & q & Hq & Hhigh). do 3 (split; [done|]).
    exists q. split; [done|]. by eapply Qle_trans. }
  assert (forall lm, lm ∈ lrows res2 ->
            lm ∈ lrows catalog /\ passes genres stars years low lm.2 = true)
    as Hin2.
  { intros lm Hlm. rewrite Hl2 in Hlm. apply subseteq_take in Hlm.
    rewrite Hperm2 in Hlm. apply list_elem_of_In, filter_In in Hlm as [Hlm Hp].
    split; [by apply list_elem_of_In|by apply Hmono]. }
  split; [intros lm Hlm; by apply Hin2|].
  intros Hfew lm Hlm. destruct (Hin2 lm Hlm) as [Hcat Hpass].
  rewrite Hl1, take_ge.
  - rewrite Hperm1. apply list_elem_of_In, filter_In.
    split; [by apply list_elem_of_In|done].
  - rewrite Hperm1.
    rewrite <- (length_fmap snd), filter_snd, (lrows_data _ Hwf). done.
Qed.

Lemma raising_the_rating_only_removes_witness :
  exists r1 s1 res1 r2 s2 res2,
    recommend_attributes stable_argsort 0 ["Sci-Fi"] [] [] 8 [mixed_catalog]
    = (Ok r1, s1) /\
    s1 !! r1 = Some res1 /\
    recommend_attributes stable_argsort 0 ["Sci-Fi"] [] [] (87 # 10)
      [mixed_catalog] = (Ok r2, s2) /\
    s2 !! r2 = Some res2 /\
    (forall lm, lm ∈ lrows res2 -> passes ["Sci-Fi"] [] [] 8 lm.2 = true) /\
    (length (List.filter (passes ["Sci-Fi"] [] [] 8) (data mixed_catalog)) <= 10 ->
     forall lm, lm ∈ lrows res2 -> lm ∈ lrows res1).
Proof.
  apply (raising_the_rating_only_removes stable_argsort 0 mixed_catalog
           ["Sci-Fi"] [] [] 8 (87 # 10) [mixed_catalog]).
  - apply stable_argsort_contract.
  - apply wf_mixed_catalog.
  - reflexivity.
  - vm_compute. discriminate.
  - reflexivity.
Defined.

Lemma computes_top_rated argsort (r : ref) s fr :
  s !! r = Some fr ->
  computes (top_rated argsort r) s
    (srt ← frame_sort argsort fr; Ok (frame_head 10 srt)).
Proof.
  intros H. unfold top_rated.
  apply computes_bind; [by apply computes_sort_values|].
  intros r' s' fr' _ Hr'. by apply computes_head.
Qed.

Lemma unrated_is_last (ranked : list (nat * Movie)) i lm lm' :
  StronglySorted (fun a b => by_rating a.2 b.2) ranked ->
  ranked !! i = Some lm -> IMDB_Rating lm.2 = None ->
  lm' ∈ ranked -> IMDB_Rating lm'.2 <> None ->
  lm' ∈ take i ranked.
Proof.
  intros Hsorted Hi Hnone Hin Hsome.
  rewrite <- (take_drop_middle _ _ _ Hi) in Hsorted, Hin.
  apply elem_of_app in Hin as [Hin|Hin]; [done|].
  apply StronglySorted_app_1_r in Hsorted. inversion_clear Hsorted as [|? ? _ Hall].
  apply elem_of_cons in Hin as [->|Hin]; [done|].
  rewrite Forall_forall in Hall. specialize (Hall _ Hin).
  unfold by_rating in Hall. rewrite Hnone in Hall.
  destruct (IMDB_Rating lm'.2); [done|congruence].
Qed.

(** X11. With nothing selected the page shows the best rated films of the
    whole catalog: an empty title in the first mode, or no genre, star
    and year in the second, whatever the slider says.  The frame shown
    holds the first ten rows of the catalog sorted by descending rating,
    unrated films last, so films rated below [min_rating] are shown, and
    an unrated film is shown only when every rated film is. *)
Theorem nothing_selected_shows_top_rated argsort inputs (d : ref) catalog
    sim_matrix s :
  argsort_contract argsort -> wf_frame catalog -> s !! d = Some catalog ->
  inputs = FindSimilarMovies "" \/
    (exists min_rating, inputs = FilterByAttributes [] [] [] min_rating) ->
  exists r s' res ranked,
    results argsort inputs d sim_matrix s = (Ok r, s') /\
    s' !! r = Some res /\ s' !! d = Some catalog /\
    wf_frame res /\ columns res = columns catalog /\
    ranked ≡ₚ lrows catalog /\
    StronglySorted (fun a b => by_rating a.2 b.2) ranked /\
    lrows res = take 10 ranked /\
    (forall lm, lm ∈ lrows res -> IMDB_Rating lm.2 = None ->
       forall lm', lm' ∈ lrows catalog -> IMDB_Rating lm'.2 <> None ->
                   lm' ∈ lrows res).
Proof.
  intros Hsort Hwf Hd Hnothing.
  assert (results argsort inputs d sim_matrix = top_rated argsort d) as ->
    by (by destruct Hnothing as [->|[min_rating ->]]).
  pose proof (computes_top_rated argsort d s catalog Hd) as Hrun.
  destruct (frame_sort_rows argsort catalog Hsort Hwf)
    as (srt & Hsrt & Hwfs & Hcols & Hperm & Hsorted).
  rewrite Hsrt in Hrun. destruct Hrun as (r & ext & Hrun & Hr).
  exists r, (s ++ ext), (frame_head 10 srt), (lrows srt).
  split; [done|]. split; [done|].
  split; [by apply lookup_app_l_Some|].
  split; [by apply wf_frame_head|]. split; [done|].
  split; [done|]. split; [done|]. split; [apply lrows_frame_head|].
  intros lm Hlm Hnone lm' Hlm' Hsome.
  rewrite lrows_frame_head in *.
  apply list_elem_of_lookup in Hlm as [i Hi].
  apply lookup_take_Some in Hi as [Hi Hlt].
  rewrite <- Hperm in Hlm'.
  pose proof (unrated_is_last _ _ _ _ Hsorted Hi Hnone Hlm' Hsome) as Hin.
  apply list_elem_of_lookup in Hin as [j Hj].
  apply lookup_take_Some in Hj as [Hj Hlt'].
  apply list_elem_of_lookup. exists j. apply lookup_take_Some. split; [done|lia].
Qed.

Lemma nothing_selected_shows_top_rated_witness :
  exists r s' res ranked,
    results stable_argsort (FilterByAttributes [] [] [] 8) 0 [] [mixed_catalog]
    = (Ok r, s') /\
    s' !! r = Some res /\ s' !! 0 = Some mixed_catalog /\
    wf_frame res /\ columns res = columns mixed_catalog /\
    ranked ≡ₚ lrows mixed_catalog /\
    StronglySorted (fun a b => by_rating a.2 b.2) ranked /\
    lrows res = take 10 ranked /\
    (forall lm, lm ∈ lrows res -> IMDB_Rating lm.2 = None ->
       forall lm', lm' ∈ lrows mixed_catalog -> IMDB_Rating lm'.2 <> None ->
                   lm' ∈ lrows res).
Proof.
  apply (nothing_selected_shows_top_rated stable_argsort
           (FilterByAttributes [] [] [] 8) 0 mixed_catalog [] [mixed_catalog]).
  - apply stable_argsort_contract.
  - apply wf_mixed_catalog.
  - reflexivity.
  - right. by exists 8%Q.
Defined.

(** X12. A poster counts as valid exactly when the request came back
    with status 200 and a [Content-Type] header in which [image] occurs
    (in this case, anywhere in the value).  A request that raised, any
    other status, a response without the header, or a header such as
    [IMAGE/PNG] all make it [False]; the function itself never raises. *)
Theorem is_valid_image_spec (requests_head : string -> option Response) url :
  (is_valid_image requests_head url = true <->
   exists r ct, requests_head url = Some r /\ status_code r = 200%Z /\
                content_type r = Some ct /\ occurs_in "image" ct) /\
  (requests_head url = None -> is_valid_image requests_head url = false) /\
  (forall r, requests_head url = Some r -> content_type r = None ->
             is_valid_image requests_head url = false).
Proof.
  assert (contains "image" "" = false) as Hempty by reflexivity.
  unfold is_valid_image. split; [|split].
  - destruct (requests_head url) as [r|]; [|split; [done|by intros (? & ? & ? & _)]].
    rewrite andb_true_iff, bool_decide_eq_true, contains_spec. split.
    + intros [Hstatus Himage]. destruct (content_type r) as [ct|] eqn:Hct.
      * by exists r, ct.
      * simpl in Himage. apply contains_spec in Himage. by rewrite Hempty in Himage.
    + intros (r' & ct & [= <-] & Hstatus & -> & Himage). done.
  - by intros ->.
  - intros r -> ->. cbn [default]. rewrite Hempty. apply andb_false_r.
Qed.

Lemma frame_empty_rows df :
  wf_frame df -> (frame_empty df = true <-> lrows df = []).
Proof.
  intros (Hcols & Hlen & _). unfold frame_empty, lrows.
  rewrite orb_true_iff, !bool_decide_eq_true. split.
  - intros [Hnil| ->]; [|done]. rewrite Hnil in Hcols.
    assert ("Poster_Link" ∈ @nil string) as Hin by (apply Hcols; by_names).
    by apply elem_of_nil in Hin.
  - intros Hzip. right.
    destruct (index df) as [|i l]; [done|].
    destruct (data df) as [|m l']; [done|]. done.
Qed.

Lemma filter_none {A} (p : A -> bool) (l : list A) :
  List.filter p l = [] <-> forall x, x ∈ l -> p x = false.
Proof.
  induction l as [|a l IH]; simpl.
  - split; [by intros _ x ?%elem_of_nil|done].
  - destruct (p a) eqn:Hp.
    + split; [done|]. intros H. specialize (H a). rewrite Hp in H.
      discriminate H. by left.
    + rewrite IH. split.
      * intros H x [->|Hx]%elem_of_cons; [done|by apply H].
      * intros H x Hx. apply H. by right.
Qed.

(** X13. When [recommend_attributes] returns, the frame is empty, so
    that the page writes its no-match message, exactly when no film of
    the catalog passes every filter. *)
Theorem no_match_message argsort (d : ref) catalog genres stars years rating s :
  argsort_contract argsort -> wf_frame catalog -> s !! d = Some catalog ->
  meets_no_rows genres stars years (data catalog) = false ->
  exists r s' res,
    recommend_attributes argsort d genres stars years rating s = (Ok r, s') /\
    s' !! r = Some res /\
    (frame_empty res = true <->
     forall m, m ∈ data catalog -> passes genres stars years rating m = false).
Proof.
  intros Hsort Hwf Hd Hmeets.
  pose proof (recommend_attributes_outcome argsort d catalog genres stars years
                rating s Hsort Hwf Hd) as H.
  rewrite Hmeets in H.
  destruct H as (r & s' & res & ranked & Hrun & Hr & Hwfr & _ & Hperm & _ & Hl).
  exists r, s', res. split; [done|]. split; [done|].
  rewrite (frame_empty_rows _ Hwfr), Hl, <- (filter_none (passes _ _ _ _)).
  rewrite <- (lrows_data _ Hwf), <- filter_snd. split.
  - intros Hnil.
    assert (ranked = []) as -> by (destruct ranked; [done|discriminate]).
    apply Permutation_nil in Hperm. by rewrite Hperm.
  - intros Hnone. apply fmap_nil_inv in Hnone. rewrite Hnone in Hperm.
    symmetry in Hperm. apply Permutation_nil in Hperm. by rewrite Hperm.
Qed.

Lemma no_match_message_witness :
  exists r s' res,
    recommend_attributes stable_argsort 0 ["Musical"] [] [] 8 [mixed_catalog]
    = (Ok r, s') /\
    s' !! r = Some res /\
    (frame_empty res = true <->
     forall m, m ∈ data mixed_catalog -> passes ["Musical"] [] [] 8 m = false).
Proof.
  apply (no_match_message stable_argsort 0 mixed_catalog ["Musical"] [] [] 8
           [mixed_catalog]).
  - apply stable_argsort_contract.
  - apply wf_mixed_catalog.
  - reflexivity.
  - reflexivity.
Defined.
